(** * NoBack: batch background removal -- input collection and batch run

    A shallow embedding of the two programs of the repository,

      - [src/noback.py]               (module [V1], the plain interface),
      - [src/Version 0002/noback.py]  (module [V2], crops to the bounding box),

    and the properties of their work-list collection and of their
    sequential per-file loop.

    Library behaviour the programs rely on is modelled in its own modules:
    [Pathlib] (pure path operations of Python's [pathlib]), [Fs] (a directory
    tree with [is_file], [is_dir] and [rglob]) and [Pil] (image size,
    [getbbox] and [crop] of Pillow).  Python exceptions are values of [Exn];
    code that can raise runs in the state-and-exception monad [M]. *)

From Stdlib Require Import Ascii QArith Qcanon Qround Qpower Lqa Sorted.
From stdpp Require Import base gmap sets list strings.

Set Warnings "-register-all".

Local Open Scope list_scope.

(** ** Python strings *)

Module Str.

(** [c.lower()] on the ASCII range: [A]..[Z] are moved to [a]..[z], every
    other byte is left alone. *)
Definition lower_ascii (c : ascii) : ascii :=
  let n := nat_of_ascii c in
  if (65 <=? n)%nat && (n <=? 90)%nat then ascii_of_nat (n + 32) else c.

Fixpoint lower (s : string) : string :=
  match s with
  | EmptyString => EmptyString
  | String c s' => String (lower_ascii c) (lower s')
  end.

(** [s.rfind(c)]: the index of the last occurrence of [c], [-1] if none. *)
Fixpoint rfind (c : ascii) (s : string) : Z :=
  match s with
  | EmptyString => (-1)%Z
  | String a s' =>
      let r := rfind c s' in
      if (0 <=? r)%Z then (r + 1)%Z
      else if Ascii.eqb a c then 0%Z else (-1)%Z
  end.

(** [s[:n]] and [s[n:]] for [0 <= n]. *)
Fixpoint take (n : nat) (s : string) : string :=
  match n, s with
  | S n', String a s' => String a (take n' s')
  | _, _ => EmptyString
  end.

Fixpoint drop (n : nat) (s : string) : string :=
  match n, s with
  | S n', String _ s' => drop n' s'
  | _, _ => s
  end.

(** [c in s] *)
Fixpoint contains (c : ascii) (s : string) : bool :=
  match s with
  | EmptyString => false
  | String a s' => Ascii.eqb a c || contains c s'
  end.

End Str.

(** ** pathlib: pure path operations *)

Module Pathlib.

(** A path is the list of its components ([PurePath.parts]). *)
Definition Path : Type := list string.

(** [p / name] *)
Definition joinpath (p : Path) (name : string) : Path := p ++ [name].

(** [p.name]: the final component, the empty string if there is none. *)
Definition name (p : Path) : string := List.last p "".

(** [PurePath.suffix]:
<<
    name = self.name
    i = name.rfind('.')
    if 0 < i < len(name) - 1: return name[i:]
    else: return ''
>> *)
Definition suffix (p : Path) : string :=
  let nm := name p in
  let i := Str.rfind "." nm in
  if (0 <? i)%Z && (i <? Z.of_nat (String.length nm) - 1)%Z
  then Str.drop (Z.to_nat i) nm
  else "".

(** [PurePath.stem]: same test, [name[:i]] or the whole name. *)
Definition stem (p : Path) : string :=
  let nm := name p in
  let i := Str.rfind "." nm in
  if (0 <? i)%Z && (i <? Z.of_nat (String.length nm) - 1)%Z
  then Str.take (Z.to_nat i) nm
  else nm.

End Pathlib.

Export Pathlib.

(** ** Exceptions *)

(** A Python exception (an instance of [Exception]) with its message. *)
Inductive Exn : Type := Exception (msg : string).

(** ** The file system seen by the input collector *)

Module Fs.

(** A directory entry: a regular file; a directory with its entries in the
    order [os.scandir] lists them; a directory the user may neither list
    nor search; a symbolic link with what it leads to, if anything (nothing
    for a dangling or circular link); a named pipe, socket or device. *)
Inductive node : Type :=
| File (nm : string)
| Dir (nm : string) (children : list node)
| Closed (nm : string)
| Link (nm : string) (target : option node)
| Special (nm : string).

Definition node_name (n : node) : string :=
  match n with
  | File nm | Dir nm _ | Closed nm | Link nm _ | Special nm => nm
  end.

(** The entries of the root directory; paths are resolved from there. *)
Definition tree : Type := list node.

Fixpoint find_child (nm : string) (ns : list node) : option node :=
  match ns with
  | [] => None
  | n :: ns' => if String.eqb (node_name n) nm then Some n else find_child nm ns'
  end.

(** What an entry is once its links are followed. *)
Fixpoint settle (n : node) : option node :=
  match n with
  | Link _ (Some n') => settle n'
  | Link _ None => None
  | _ => Some n
  end.

(** The errors of [os.stat] that pathlib does not take for "not there":
    EACCES below a directory that may not be searched, ENAMETOOLONG for a
    component of more than [NAME_MAX] bytes. *)
Definition PermissionError : Exn := Exception "[Errno 13] Permission denied".
Definition FileNameTooLong : Exn := Exception "[Errno 36] File name too long".

Definition NAME_MAX : nat := 255.

Definition too_long (c : string) : bool := (NAME_MAX <? String.length c)%nat.

(** [os.stat(p)], links followed, from the directory with the entries
    [ns]: [inr (Some n)] is what is found, [inr None] says that nothing is
    there (ENOENT, ENOTDIR, ELOOP), [inl e] is any other error. *)
Fixpoint stat_from (ns : list node) (p : list string) : Exn + option node :=
  match p with
  | [] => inr None
  | c :: p' =>
      if too_long c then inl FileNameTooLong
      else
        match find_child c ns with
        | None => inr None
        | Some n =>
            match p' with
            | [] => inr (settle n)
            | _ :: _ =>
                match settle n with
                | Some (Dir _ cs) => stat_from cs p'
                | Some (Closed _) => inl PermissionError
                | _ => inr None
                end
            end
        end
  end.

(** [Path.is_file()] and [Path.is_dir()]:
<<
    try:
        return S_ISREG(self.stat().st_mode)
    except OSError as e:
        if not _ignore_error(e):
            raise
        return False
>>
    Both are [False] where nothing is there, and both raise the errors
    pathlib does not ignore.  The empty path is the root directory. *)
Definition is_file (t : tree) (p : Path) : Exn + bool :=
  match p with
  | [] => inr false
  | _ :: _ =>
      match stat_from t p with
      | inl e => inl e
      | inr (Some (File _)) => inr true
      | inr _ => inr false
      end
  end.

Definition is_dir (t : tree) (p : Path) : Exn + bool :=
  match p with
  | [] => inr true
  | _ :: _ =>
      match stat_from t p with
      | inl e => inl e
      | inr (Some (Dir _ _)) | inr (Some (Closed _)) => inr true
      | inr _ => inr false
      end
  end.

(** The entries [os.scandir] lists for the directory a path leads to:
    [inr None] when the path leads to no directory, or to one that may not
    be listed. *)
Definition scandir (t : tree) (folder : Path) : Exn + option (list node) :=
  match folder with
  | [] => inr (Some t)
  | _ :: _ =>
      match stat_from t folder with
      | inl e => inl e
      | inr (Some (Dir _ cs)) => inr (Some cs)
      | inr _ => inr None
      end
  end.

(** [folder.rglob("*")]: pathlib walks the directories in pre-order and,
    for each one, yields all of its entries -- whatever they are -- before
    it descends into its sub-directories.  It descends into directories
    only: not into a link ([entry.is_symlink()]), and a directory that may
    not be listed contributes nothing (the walk swallows the
    [PermissionError] of [scandir]).
    [rglob_node parent n] is what the walk yields below the entry [n] of
    the directory [parent]. *)
Fixpoint rglob_node (parent : Path) (n : node) : list Path :=
  match n with
  | Dir nm cs =>
      let here := joinpath parent nm in
      map (fun c => joinpath here (node_name c)) cs ++
      flat_map (rglob_node here) cs
  | _ => []
  end.

Definition rglob_entries (here : Path) (ns : list node) : list Path :=
  map (fun c => joinpath here (node_name c)) ns ++
  flat_map (rglob_node here) ns.

(** The walk starts with [if not is_dir(parent_path): return iter([])],
    which raises what [is_dir] raises, and yields no path twice ([if p not
    in yielded]). *)
Definition rglob (t : tree) (folder : Path) : Exn + list Path :=
  match scandir t folder with
  | inl e => inl e
  | inr (Some ns) => inr (remove_dups (rglob_entries folder ns))
  | inr None => inr []
  end.

End Fs.

Export Fs.

(** ** The input collector (identical in both programs) *)

(** [SUPPORTED_EXTS = {".png", ".jpg", ".jpeg", ".webp", ".bmp", ".tiff", ".tif"}] *)
Definition SUPPORTED_EXTS : list string :=
  [".png"; ".jpg"; ".jpeg"; ".webp"; ".bmp"; ".tiff"; ".tif"].

(** [p.suffix.lower() in SUPPORTED_EXTS] *)
Definition supported (p : Path) : bool :=
  bool_decide (Str.lower (suffix p) ∈ SUPPORTED_EXTS).

(** [iter_images_in_dir]:
<<
    for p in folder.rglob("*"):
        if p.suffix.lower() in SUPPORTED_EXTS:
            yield p
>> *)
Definition iter_images_in_dir (t : tree) (folder : Path) : Exn + list Path :=
  match rglob t folder with
  | inl e => inl e
  | inr l => inr (filter (fun p => supported p = true) l)
  end.

(** ** Pillow images *)

Module Pil.

(** An RGBA pixel: red, green, blue, alpha, each in 0..255. *)
Definition pixel : Type := (N * N * N * N)%type.

Definition alpha (px : pixel) : N := snd px.

(** An image in mode RGBA: its size and its pixel access
    ([im.getpixel((x, y))], meaningful for [x < width], [y < height]). *)
Record Image : Type := mkImage {
  width : nat;
  height : nat;
  getpixel : nat -> nat -> pixel;
}.

(** [im.size], the pair of the width and the height. *)
Definition dimensions (im : Image) : nat * nat := (width im, height im).

Definition opaque_at (im : Image) (x y : nat) : bool :=
  negb (alpha (getpixel im x y) =? 0)%N.

Definition column_has_data (im : Image) (x : nat) : bool :=
  existsb (fun y => opaque_at im x y) (seq 0 (height im)).

Definition row_has_data (im : Image) (y : nat) : bool :=
  existsb (fun x => opaque_at im x y) (seq 0 (width im)).

(** [im.getbbox()] on an RGBA image (Pillow 10 and later trim on the alpha
    channel): the box [(left, upper, right, lower)] of the pixels whose
    alpha is not zero, right and lower exclusive; [None] when there is no
    such pixel. *)
Definition getbbox (im : Image) : option (nat * nat * nat * nat) :=
  let cols := seq 0 (width im) in
  let rows := seq 0 (height im) in
  match List.find (column_has_data im) cols,
        List.find (row_has_data im) rows,
        List.find (column_has_data im) (rev cols),
        List.find (row_has_data im) (rev rows) with
  | Some l, Some u, Some r, Some b => Some (l, u, S r, S b)
  | _, _, _, _ => None
  end.

(** [im.crop((left, upper, right, lower))] *)
Definition crop (im : Image) (box : nat * nat * nat * nat) : Image :=
  let '(l, u, r, b) := box in
  {| width := r - l;
     height := b - u;
     getpixel := fun x y => getpixel im (x + l) (y + u) |}.

End Pil.

Export Pil.

(** ** Program state, exceptions and the monad of the embedding *)

Definition ZeroDivisionError : Exn := Exception "division by zero".

(** The lines the programs write to their log widget. *)
Inductive LogLine : Type :=
| LogSelected (n : nat)          (* "{n} arquivo(s) selecionado(s)." *)
| LogFound (n : nat)             (* "{n} arquivo(s) encontrados na pasta." *)
| LogOutputDir (d : Path)        (* "Pasta de saida: {d}" *)
| LogDropped (n : nat)           (* "{n} arquivo(s) carregados por arrastar e soltar." *)
| LogStart (n : nat)             (* V1: "Iniciando processamento de {n} arquivos..." *)
| LogTotal (n : nat)             (* V2: "{n} arquivo(s) a processar." *)
| LogProcessing (nm : string)    (* V2: "Processando: {nm} ..." *)
| LogOk (nm out_nm : string)     (* check mark, "{nm} -> {out_nm}" *)
| LogErr (nm : string) (e : Exn) (* cross, "Erro em {nm}: {e}" *)
| LogDone.                       (* "Concluido!" *)

(** The calls the programs make on their widgets. *)
Inductive Event : Type :=
| AppendLog (l : LogLine)                             (* self.append_log(...) *)
| ProgressConfigure (maximum : option nat) (value : nat)
                                      (* V1: self.progress.configure(...) *)
| SetProgress (fraction : Qc)         (* V2: self.set_progress(fraction) *)
| ShowWarning (text : string).        (* messagebox.showwarning(...) *)

(** What a file holds: a PNG encoding of an image, or anything else. *)
Inductive FileData : Type :=
| Png (im : Image)
| Raw (bytes : string).

(** The file system the batch run writes to. *)
Record World : Type := mkWorld {
  files : gmap Path FileData;
  dirs : gset Path;
}.

(** The application object and its surroundings.  [gui] lists the widget
    calls, oldest first.  [attempts] and [writes] are ghost fields: the
    arguments of the calls of [process_image], and the files saved. *)
Record State : Type := mkState {
  input_paths : list Path;          (* self.input_paths *)
  output_dir : option Path;         (* self.output_dir, None or a Path *)
  gui : list Event;
  world : World;
  attempts : list Path;
  writes : list (Path * Image);
}.

(** The behaviour of the libraries and of the operating system: which calls
    fail, with which exception, and what decoding and background removal
    return. *)
Record Env : Type := mkEnv {
  (* the error of out_dir.mkdir(parents=True, exist_ok=True), if it fails *)
  mkdir_error : World -> Path -> option Exn;
  (* when it raises: how many of the leading directories of the path are
     there once the call is over (pathlib makes the missing parents from
     the top, one by one, and may fail further down) *)
  mkdir_made : World -> Path -> nat;
  (* Image.open(p).convert("RGBA") *)
  image_open : World -> Path -> Exn + Image;
  (* rembg.remove *)
  remove : Image -> Exn + Image;
  (* the error of out.save(p, format="PNG"), if it fails *)
  save_error : World -> Path -> Image -> option Exn;
}.

Definition M (A : Type) : Type := State -> (Exn + A) * State.

Definition ret {A} (a : A) : M A := fun s => (inr a, s).

Definition bind {A B} (m : M A) (k : A -> M B) : M B :=
  fun s => match m s with
           | (inr a, s') => k a s'
           | (inl e, s') => (inl e, s')
           end.

Definition raise {A} (e : Exn) : M A := fun s => (inl e, s).

(** [try: body / except Exception as e: handler e] *)
Definition try_except {A} (body : M A) (handler : Exn -> M A) : M A :=
  fun s => match body s with
           | (inr a, s') => (inr a, s')
           | (inl e, s') => handler e s'
           end.

Definition get : M State := fun s => (inr s, s).
Definition modify (f : State -> State) : M unit := fun s => (inr tt, f s).

Declare Scope monad_scope.
Delimit Scope monad_scope with monad.
Notation "x <- m ;; k" := (bind m (fun x => k))
  (at level 100, m at next level, right associativity) : monad_scope.
Notation "m ;; k" := (bind m (fun _ => k))
  (at level 100, right associativity) : monad_scope.
Local Open Scope monad_scope.

(** [for idx, x in enumerate(l, start=idx): body idx x] *)
Fixpoint for_enumerate {A} (idx : nat) (l : list A) (body : nat -> A -> M unit)
  : M unit :=
  match l with
  | [] => ret tt
  | x :: l' => body idx x ;; for_enumerate (S idx) l' body
  end.

Definition set_input_paths (l : list Path) (s : State) : State :=
  mkState l (output_dir s) (gui s) (world s) (attempts s) (writes s).
Definition set_output_dir (d : option Path) (s : State) : State :=
  mkState (input_paths s) d (gui s) (world s) (attempts s) (writes s).
Definition add_event (e : Event) (s : State) : State :=
  mkState (input_paths s) (output_dir s) (gui s ++ [e]) (world s)
          (attempts s) (writes s).
Definition set_world (w : World) (s : State) : State :=
  mkState (input_paths s) (output_dir s) (gui s) w (attempts s) (writes s).
Definition add_attempt (p : Path) (s : State) : State :=
  mkState (input_paths s) (output_dir s) (gui s) (world s)
          (attempts s ++ [p]) (writes s).
Definition add_write (p : Path) (im : Image) (s : State) : State :=
  mkState (input_paths s) (output_dir s) (gui s) (world s)
          (attempts s) (writes s ++ [(p, im)]).

(** Widget calls. *)
Definition append_log (l : LogLine) : M unit := modify (add_event (AppendLog l)).
Definition progress_configure (maximum : option nat) (value : nat) : M unit :=
  modify (add_event (ProgressConfigure maximum value)).
Definition set_progress (fraction : Qc) : M unit :=
  modify (add_event (SetProgress fraction)).
Definition showwarning (text : string) : M unit :=
  modify (add_event (ShowWarning text)).

(** [a / b] on Python numbers, as an exact fraction. *)
Definition truediv (a b : nat) : M Qc :=
  if (b =? 0)%nat then raise ZeroDivisionError
  else ret (Q2Qc (Z.of_nat a # Pos.of_nat b)).

(** Library calls, each against the current world. *)

(** [p] and the directories above it. *)
Definition with_parents (p : Path) : list Path :=
  map (fun n => take n p) (seq 1 (length p)).

(** The directories above [p] that a failing [mkdir] leaves: the first
    [made] of them, never [p] itself. *)
Definition parents_made (made : nat) (p : Path) : list Path :=
  take (made `min` (length p - 1)) (with_parents p).

(** [p.mkdir(parents=True, exist_ok=True)] *)
Definition mkdir (env : Env) (d : Path) : M unit :=
  s <- get ;;
  match mkdir_error env (world s) d with
  | Some e =>
      modify (set_world
        (mkWorld (files (world s))
           (list_to_set (parents_made (mkdir_made env (world s) d) d)
            ∪ dirs (world s)))) ;;
      raise e
  | None =>
      modify (set_world
        (mkWorld (files (world s)) (list_to_set (with_parents d) ∪ dirs (world s))))
  end.

Definition open_rgba (env : Env) (p : Path) : M Image :=
  s <- get ;;
  match image_open env (world s) p with
  | inl e => raise e
  | inr im => ret im
  end.

Definition rembg_remove (env : Env) (im : Image) : M Image :=
  match remove env im with
  | inl e => raise e
  | inr out => ret out
  end.

Definition save_png (env : Env) (p : Path) (out : Image) : M unit :=
  s <- get ;;
  match save_error env (world s) p out with
  | Some e => raise e
  | None =>
      modify (set_world (mkWorld (<[p := Png out]> (files (world s))) (dirs (world s)))) ;;
      modify (add_write p out)
  end.

(** ** The input collector, as the application's handlers *)

(** One round of the loop of [on_drop]:
<<
    p = Path(p)
    if p.is_file() and p.suffix.lower() in SUPPORTED_EXTS:
        all_files.append(p)
    elif p.is_dir():
        all_files.extend(iter_images_in_dir(p))
>> *)
Definition on_drop_step (t : tree) (all_files : list Path) (p : Path)
  : Exn + list Path :=
  match is_file t p with
  | inl e => inl e
  | inr b =>
      if b && supported p then inr (all_files ++ [p])
      else
        match is_dir t p with
        | inl e => inl e
        | inr true =>
            match iter_images_in_dir t p with
            | inl e => inl e
            | inr l => inr (all_files ++ l)
            end
        | inr false => inr all_files
        end
  end.

(** [for p in paths: ...], from [all_files]; an exception ends it. *)
Fixpoint on_drop_loop (t : tree) (paths : list Path) (all_files : list Path)
  : Exn + list Path :=
  match paths with
  | [] => inr all_files
  | p :: rest =>
      match on_drop_step t all_files p with
      | inl e => inl e
      | inr l => on_drop_loop t rest l
      end
  end.

(** [on_drop]; [paths] is [self.tk.splitlist(event.data)].
<<
    all_files = []
    for p in paths: ...
    if all_files:
        self.input_paths = all_files
        self.append_log(...)
>> *)
Definition on_drop (t : tree) (paths : list Path) : M unit :=
  match on_drop_loop t paths [] with
  | inl e => raise e
  | inr [] => ret tt
  | inr (f :: l) =>
      modify (set_input_paths (f :: l)) ;;
      append_log (LogDropped (length (f :: l)))
  end.

(** [choose_files]; [files] is what the file dialog returned. *)
Definition choose_files (picked : list Path) : M unit :=
  match picked with
  | [] => ret tt
  | _ :: _ =>
      modify (set_input_paths picked) ;;
      append_log (LogSelected (length picked))
  end.

(** [choose_folder]; [folder] is what the directory dialog returned, [None]
    when it was cancelled. *)
Definition choose_folder (t : tree) (folder : option Path) : M unit :=
  match folder with
  | None => ret tt
  | Some d =>
      match iter_images_in_dir t d with
      | inl e => raise e
      | inr l =>
          modify (set_input_paths l) ;;
          s <- get ;;
          append_log (LogFound (length (input_paths s)))
      end
  end.

(** [choose_output] *)
Definition choose_output (folder : option Path) : M unit :=
  match folder with
  | None => ret tt
  | Some d =>
      modify (set_output_dir (Some d)) ;;
      append_log (LogOutputDir d)
  end.

(** ** src/noback.py *)

Module V1.

(** [process_image]:
<<
  out_dir.mkdir(parents=True, exist_ok=True)
  with Image.open(in_path).convert("RGBA") as im:
      out = remove(im)
      base = in_path.stem
      out_path = out_dir / f"{base}_nobg.png"
      out.save(out_path, format="PNG")
      return out_path
>> *)
Definition process_image (env : Env) (in_path out_dir : Path) : M Path :=
  modify (add_attempt in_path) ;;
  mkdir env out_dir ;;
  im <- open_rgba env in_path ;;
  out <- rembg_remove env im ;;
  let base := stem in_path in
  let out_path := joinpath out_dir (base +:+ "_nobg.png") in
  save_png env out_path out ;;
  ret out_path.

(** The body of the loop of [process]; [self.update_idletasks()] only
    redraws and is left out. *)
Definition process_item (env : Env) (out_dir : Path) (idx : nat) (f : Path)
  : M unit :=
  try_except
    (out_path <- process_image env f out_dir ;;
     append_log (LogOk (name f) (name out_path)))
    (fun e => append_log (LogErr (name f) e)) ;;
  progress_configure None idx.

(** [App.process] *)
Definition process (env : Env) : M unit :=
  s <- get ;;
  match input_paths s, output_dir s with
  | [], _ =>
      showwarning "Selecione arquivos ou uma pasta primeiro."
  | _ :: _, None =>
      showwarning "Selecione a pasta de saída."
  | _ :: _, Some out_dir =>
      progress_configure (Some (length (input_paths s))) 0 ;;
      append_log (LogStart (length (input_paths s))) ;;
      for_enumerate 1 (input_paths s) (process_item env out_dir) ;;
      append_log LogDone
  end.

End V1.

(** ** src/Version 0002/noback.py *)

Module V2.

(** [process_image]: as in [V1], with
<<
      bbox = out.getbbox()
      if bbox:
          out = out.crop(bbox)
>>
    between [remove] and the save. *)
Definition process_image (env : Env) (in_path out_dir : Path) : M Path :=
  modify (add_attempt in_path) ;;
  mkdir env out_dir ;;
  im <- open_rgba env in_path ;;
  out <- rembg_remove env im ;;
  let bbox := getbbox out in
  let out := match bbox with Some box => crop out box | None => out end in
  let base := stem in_path in
  let out_path := joinpath out_dir (base +:+ "_nobg.png") in
  save_png env out_path out ;;
  ret out_path.

(** The body of the loop of [_process_all]. *)
Definition process_item (env : Env) (out_dir : Path) (total : nat)
           (idx : nat) (p : Path) : M unit :=
  try_except
    (append_log (LogProcessing (name p)) ;;
     out <- process_image env p out_dir ;;
     append_log (LogOk (name p) (name out)))
    (fun e => append_log (LogErr (name p) e)) ;;
  fraction <- truediv idx total ;;
  set_progress fraction.

(** [NoBackApp._process_all]; [out_dir] is [self.output_dir], which
    [start_process] has checked. *)
Definition _process_all (env : Env) (out_dir : Path) : M unit :=
  s <- get ;;
  let total := length (input_paths s) in
  append_log (LogTotal total) ;;
  set_progress 0 ;;
  for_enumerate 1 (input_paths s) (process_item env out_dir total) ;;
  append_log LogDone ;;
  set_progress 1.

(** [NoBackApp.start_process]; the worker thread it starts is run to its
    end. *)
Definition start_process (env : Env) : M unit :=
  s <- get ;;
  match input_paths s, output_dir s with
  | [], _ =>
      showwarning "Selecione arquivos ou uma pasta primeiro."
  | _ :: _, None =>
      showwarning "Selecione a pasta de saída."
  | _ :: _, Some out_dir => _process_all env out_dir
  end.

End V2.

(** ** Reading the trace *)

(** The per-item result lines of a trace. *)
Definition result_line (e : Event) : option LogLine :=
  match e with
  | AppendLog (LogOk nm out) => Some (LogOk nm out)
  | AppendLog (LogErr nm e) => Some (LogErr nm e)
  | _ => None
  end.

Definition result_lines (tr : list Event) : list LogLine :=
  omap result_line tr.

(** The item a result line names. *)
Definition line_item (l : LogLine) : string :=
  match l with
  | LogOk nm _ => nm
  | LogErr nm _ => nm
  | _ => ""
  end.

Definition is_ok (l : LogLine) : bool :=
  match l with LogOk _ _ => true | _ => false end.

(** The values the progress display was given, as fractions of the whole:
    the arguments of [set_progress] (V2), and [value / maximum] for the
    progress bar of V1, whose maximum is the last one configured. *)
Definition progress_call (e : Event) : option Qc :=
  match e with SetProgress q => Some q | _ => None end.

Definition progress_calls (tr : list Event) : list Qc := omap progress_call tr.

Definition configure_call (e : Event) : option (option nat * nat) :=
  match e with ProgressConfigure m v => Some (m, v) | _ => None end.

Definition configure_calls (tr : list Event) : list (option nat * nat) :=
  omap configure_call tr.

(** * Vocabulary of the statements *)

(** ** Calls of [process_image] *)

(** [out_dir / f"{base}_nobg.png"] for [base = in_path.stem]. *)
Definition out_path (out_dir in_path : Path) : Path :=
  joinpath out_dir (stem in_path +:+ "_nobg.png").

(** The world once [out_dir.mkdir(parents=True, exist_ok=True)] has
    returned. *)
Definition after_mkdir (w : World) (d : Path) : World :=
  mkWorld (files w) (list_to_set (with_parents d) ∪ dirs w).

(** The world once that call has raised: no file is touched, some of the
    directories above [d] may have been made. *)
Definition after_failed_mkdir (env : Env) (w : World) (d : Path) : World :=
  mkWorld (files w) (list_to_set (parents_made (mkdir_made env w d) d) ∪ dirs w).


(** What V2 saves for the image [out] that [remove] returned. *)
Definition cropped (out : Image) : Image :=
  match getbbox out with Some box => crop out box | None => out end.

(** The state after a call that saved [img] for [in_path]. *)
Definition saved_state (s : State) (in_path d : Path) (img : Image) : State :=
  mkState (input_paths s) (output_dir s) (gui s)
          (mkWorld (<[out_path d in_path := Png img]> (files (world s)))
                   (dirs (after_mkdir (world s) d)))
          (attempts s ++ [in_path])
          (writes s ++ [(out_path d in_path, img)]).

(** The state after a call that raised: at most directories were made. *)
Definition failed_state (s : State) (in_path : Path) (w : World) : State :=
  mkState (input_paths s) (output_dir s) (gui s) w
          (attempts s ++ [in_path]) (writes s).

(** A call of [process_image], by cases on what the libraries do.  [post]
    is the image saved for the result of [remove]. *)
Definition process_image_cases (post : Image -> Image)
    (env : Env) (in_path d : Path) (s : State)
    (res : (Exn + Path) * State) : Prop :=
  let w1 := after_mkdir (world s) d in
  match mkdir_error env (world s) d with
  | Some e =>
      res = (inl e, failed_state s in_path (after_failed_mkdir env (world s) d))
  | None =>
      match image_open env w1 in_path with
      | inl e => res = (inl e, failed_state s in_path w1)
      | inr im =>
          match remove env im with
          | inl e => res = (inl e, failed_state s in_path w1)
          | inr out =>
              match save_error env w1 (out_path d in_path) (post out) with
              | Some e => res = (inl e, failed_state s in_path w1)
              | None => res = (inr (out_path d in_path),
                               saved_state s in_path d (post out))
              end
          end
      end
  end.

(** What every call does, whatever the libraries do: the item is noted as
    attempted, the widgets are not touched, and a file is written exactly
    when the call returns -- then at [out_path], replacing what was there. *)
Definition process_image_post (in_path d : Path) (s : State)
    (res : (Exn + Path) * State) : Prop :=
  let s' := res.2 in
  input_paths s' = input_paths s ∧ output_dir s' = output_dir s ∧
  gui s' = gui s ∧ attempts s' = attempts s ++ [in_path] ∧
  match res.1 with
  | inl _ => writes s' = writes s ∧ files (world s') = files (world s)
  | inr out =>
      out = out_path d in_path ∧
      ∃ img, writes s' = writes s ++ [(out, img)] ∧
             files (world s') = <[out := Png img]> (files (world s))
  end.

(** ** Results and widget calls of the loop *)

(** A per-item result: the item, and what [process_image] returned for it
    (the output path) or raised. *)
Definition Result : Type := (Path * (Exn + Path))%type.

Definition line_of (r : Result) : LogLine :=
  match r.2 with
  | inr out => LogOk (name r.1) (name out)
  | inl e => LogErr (name r.1) e
  end.

Definition saved_path (r : Result) : option Path :=
  match r.2 with inr out => Some out | inl _ => None end.

(** [idx / total] for [total > 0]. *)
Definition fraction (total idx : nat) : Qc :=
  Q2Qc (Z.of_nat idx # Pos.of_nat total).

(** The widget calls of one round of each loop. *)
Definition V1_item_events (idx : nat) (r : Result) : list Event :=
  [AppendLog (line_of r); ProgressConfigure None idx].

Definition V2_item_events (total idx : nat) (r : Result) : list Event :=
  [AppendLog (LogProcessing (name r.1)); AppendLog (line_of r);
   SetProgress (fraction total idx)].

Fixpoint run_events (ev : nat -> Result -> list Event) (idx : nat)
         (rs : list Result) : list Event :=
  match rs with
  | [] => []
  | r :: rs' => ev idx r ++ run_events ev (S idx) rs'
  end.

(** Writing the files of [ws] one after the other. *)
Definition replay (ws : list (Path * Image)) (m : gmap Path FileData)
  : gmap Path FileData :=
  fold_left (fun m w => <[w.1 := Png w.2]> m) ws m.

(** One round: from [s] to [s'], for the item and result [r], with the
    widget calls [evs]. *)
Definition item_step (d : Path) (evs : list Event) (r : Result)
    (s s' : State) : Prop :=
  input_paths s' = input_paths s ∧ output_dir s' = output_dir s ∧
  gui s' = gui s ++ evs ∧ attempts s' = attempts s ++ [r.1] ∧
  match r.2 with
  | inl _ => writes s' = writes s ∧ files (world s') = files (world s)
  | inr out =>
      out = out_path d r.1 ∧
      ∃ img, writes s' = writes s ++ [(out, img)] ∧
             files (world s') = <[out := Png img]> (files (world s))
  end.

(** A whole loop over the items [map fst rs], with the files [ws] saved. *)
Definition run_steps (d : Path) (evs : list Event) (rs : list Result)
    (ws : list (Path * Image)) (s s' : State) : Prop :=
  input_paths s' = input_paths s ∧ output_dir s' = output_dir s ∧
  gui s' = gui s ++ evs ∧ attempts s' = attempts s ++ map fst rs ∧
  writes s' = writes s ++ ws ∧ map fst ws = omap saved_path rs ∧
  Forall (fun r => ∀ out, r.2 = inr out → out = out_path d r.1) rs ∧
  files (world s') = replay ws (files (world s)).

(** The widget calls of a whole run. *)
Definition V1_run_events (rs : list Result) : list Event :=
  [ProgressConfigure (Some (length rs)) 0; AppendLog (LogStart (length rs))] ++
  run_events V1_item_events 1 rs ++ [AppendLog LogDone].

Definition V2_run_events (rs : list Result) : list Event :=
  [AppendLog (LogTotal (length rs)); SetProgress 0] ++
  run_events (V2_item_events (length rs)) 1 rs ++
  [AppendLog LogDone; SetProgress 1].

(** ** Concrete inputs *)

Definition one_pixel : Image := mkImage 1 1 (fun _ _ => (10, 20, 30, 255)%N).

Definition no_pixel : Image := mkImage 0 0 (fun _ _ => (0, 0, 0, 0)%N).

(** Everything works; every file decodes to [one_pixel]. *)
Definition env_ok : Env :=
  {| mkdir_error := fun _ _ => None;
     mkdir_made := fun _ _ => 0;
     image_open := fun _ _ => inr one_pixel;
     remove := fun im => inr im;
     save_error := fun _ _ _ => None |}.




Definition model_error : Exn := Exception "transform failed".

(** [b.png] decodes to an image the transform rejects. *)
Definition env_b_fails : Env :=
  {| mkdir_error := fun _ _ => None;
     mkdir_made := fun _ _ => 0;
     image_open := fun _ p =>
       if decide (name p = "b.png") then inr no_pixel else inr one_pixel;
     remove := fun im =>
       if (width im =? 0)%nat then inl model_error else inr im;
     save_error := fun _ _ _ => None |}.

(** A fresh application object with a work list and an output directory. *)
Definition initial (paths : list Path) (out : option Path) : State :=
  mkState paths out [] (mkWorld ∅ ∅) [] [].

(** ** Items that fail *)

(** The directory can be made, and decoding the item, its transform or the
    save raises [e] -- in any world.  [post] is what is done to the image
    before it is saved. *)
Definition item_fails (post : Image -> Image) (env : Env) (d f : Path)
    (e : Exn) : Prop :=
  ∀ w, mkdir_error env w d = None ∧
       match image_open env (after_mkdir w d) f with
       | inl e' => e' = e
       | inr im =>
           match remove env im with
           | inl e' => e' = e
           | inr out =>
               save_error env (after_mkdir w d) (out_path d f) (post out) = Some e
           end
       end.

(** ** Folders *)

(** The directory of the specification's example, and one with a
    sub-directory whose name ends in an image extension. *)
Definition example_folder : tree :=
  [File "a.png"; File "b.txt"; File "c.JPG"; Dir "sub" [File "d.webp"]].

Definition folder_with_dir_png : tree :=
  [File "a.png"; Dir "x.png" [File "notes.txt"]].

(** ** Drop payloads *)

(** The error [os.stat] raises for an entry, if it raises: examining the
    entry ([is_file], [is_dir], the start of [rglob]) then raises it. *)
Definition stat_error (t : tree) (p : Path) : option Exn :=
  match p with
  | [] => None
  | _ :: _ => match stat_from t p with inl e => Some e | inr _ => None end
  end.

(** The test says yes. *)
Definition yes (r : Exn + bool) : bool :=
  match r with inr true => true | _ => false end.

(** What a folder contributes, in the words of the specification: the
    paths [iter_images_in_dir] yields. *)
Definition folder_images (t : tree) (folder : Path) : list Path :=
  match iter_images_in_dir t folder with inr l => l | inl _ => [] end.

(** What one entry of a drop payload contributes, in the words of the
    specification: itself if it is a file with a supported extension, the
    expansion of the folder if it is a directory, nothing otherwise. *)
Definition drop_entry (t : tree) (p : Path) : list Path :=
  if yes (is_file t p) && supported p then [p]
  else if yes (is_dir t p) then folder_images t p
  else [].


(** ** Directory trees and unrelated entries *)

Definition folder_d : tree := [Dir "d" [File "a.png"]].

(** A file next to a directory that may not be entered. *)
Definition folder_private : tree := [File "ok.png"; Closed "private"].



(** Induction on directory trees. *)
Fixpoint node_induction (P : node -> Prop)
    (HF : ∀ nm, P (File nm))
    (HD : ∀ nm cs, Forall P cs → P (Dir nm cs))
    (HC : ∀ nm, P (Closed nm))
    (HL : ∀ nm n', P n' → P (Link nm (Some n')))
    (HL0 : ∀ nm, P (Link nm None))
    (HS : ∀ nm, P (Special nm)) (n : node) : P n :=
  match n with
  | File nm => HF nm
  | Dir nm cs =>
      HD nm cs
         ((fix all (l : list node) : Forall P l :=
             match l with
             | [] => @List.Forall_nil _ P
             | c :: l' =>
                 @List.Forall_cons _ P c l'
                   (node_induction P HF HD HC HL HL0 HS c) (all l')
             end) cs)
  | Closed nm => HC nm
  | Link nm (Some n') => HL nm n' (node_induction P HF HD HC HL HL0 HS n')
  | Link nm None => HL0 nm
  | Special nm => HS nm
  end.

(** Two entries of a payload of which neither is the other nor lies
    inside the other. *)
Definition unrelated (p q : Path) : Prop :=
  ¬ p `prefix_of` q ∧ ¬ q `prefix_of` p.

(** ** Bounding boxes *)

(** The pixels of [im] that are not fully transparent occupy the rectangle
    [box]: they all lie in it, and each of its four sides holds one. *)
Definition occupies (im : Image) (box : nat * nat * nat * nat) : Prop :=
  let '(l, u, r, b) := box in
  l < r ∧ r ≤ width im ∧ u < b ∧ b ≤ height im ∧
  (∀ x y, x < width im → y < height im → opaque_at im x y = true →
          l ≤ x ∧ x < r ∧ u ≤ y ∧ y < b) ∧
  (∃ y, y < height im ∧ opaque_at im l y = true) ∧
  (∃ y, y < height im ∧ opaque_at im (r - 1) y = true) ∧
  (∃ x, x < width im ∧ opaque_at im x u = true) ∧
  (∃ x, x < width im ∧ opaque_at im x (b - 1) = true).

Definition fully_transparent (im : Image) : Prop :=
  ∀ x y, x < width im → y < height im → opaque_at im x y = false.

(** A 4 x 3 canvas whose opaque pixels are (1,1) and (2,1). *)
Definition two_opaque : Image :=
  mkImage 4 3 (fun x y =>
    if ((x =? 1)%nat || (x =? 2)%nat) && (y =? 1)%nat
    then (200, 100, 50, 255)%N else (0, 0, 0, 0)%N).

(** Everything works; every file decodes to [two_opaque]. *)
Definition env_two_opaque : Env :=
  {| mkdir_error := fun _ _ => None;
     mkdir_made := fun _ _ => 0;
     image_open := fun _ _ => inr two_opaque;
     remove := fun im => inr im;
     save_error := fun _ _ _ => None |}.

(** ** Items that succeed *)

(** The directory can be made, the item decodes, the transform returns and
    the save works, in the world [w]. *)
Definition item_succeeds (env : Env) (w : World) (d in_path : Path)
    (out : Image) : Prop :=
  mkdir_error env w d = None ∧
  (∃ im, image_open env (after_mkdir w d) in_path = inr im ∧
         remove env im = inr out) ∧
  ∀ img, save_error env (after_mkdir w d) (out_path d in_path) img = None.

(** ** Colliding outputs *)

(** The files a run has written, as a set. *)
Definition files_written (ws : list (Path * Image)) : gset Path :=
  list_to_set (map fst ws).

(** The number of success lines among result lines. *)
Definition successes (ls : list LogLine) : nat := length (List.filter is_ok ls).

(** A run over a work list in which the items at positions [i] and [j]
    are [p] and an item with the stem of [p]: when both result lines are
    success lines, both saves went to the output path of [p], the second
    after the first, and the run wrote fewer files than it logged
    successes.  [ws] lists the saves in the order they were made; the
    files of the final world are the initial ones with [ws] written over
    them. *)
Definition collision (run : M unit) (s : State) (d p : Path) (i j : nat)
  : Prop :=
  ∃ s' tr ws,
    run s = (inr tt, s') ∧ gui s' = gui s ++ tr ∧
    writes s' = writes s ++ ws ∧
    files (world s') = replay ws (files (world s)) ∧
    dom (files (world s')) = files_written ws ∪ dom (files (world s)) ∧
    (is_ok <$> result_lines tr !! i = Some true →
     is_ok <$> result_lines tr !! j = Some true →
     (∃ ws1 im1 ws2 im2 ws3,
        ws = ws1 ++ (out_path d p, im1) :: ws2 ++ (out_path d p, im2) :: ws3) ∧
     size (files_written ws) < successes (result_lines tr)).

(** * Further vocabulary *)

(** ** Eligible names *)

(** The extensions of [SUPPORTED_EXTS], without their dot. *)
Definition image_extensions : list string :=
  ["png"; "jpg"; "jpeg"; "webp"; "bmp"; "tiff"; "tif"].

(** ** Paths of a directory tree *)






(** ** Runs *)

(** The run is refused: a warning is shown and nothing else happens. *)
Definition refused (run : M unit) (s : State) (text : string) : Prop :=
  run s = (inr tt, add_event (ShowWarning text) s).

(** [s.endswith(suf)] *)
Fixpoint ends_with (suf s : string) : bool :=
  String.eqb s suf ||
  match s with
  | EmptyString => false
  | String _ s' => ends_with suf s'
  end.

(** From [s] the run ends in [s'] having written only output files of its
    items and having left every other file as it was. *)
Definition only_outputs_written (run : M unit) (s : State) (d : Path) : Prop :=
  ∃ s' ws,
    run s = (inr tt, s') ∧ writes s' = writes s ++ ws ∧
    (∀ path, In path (map fst ws) →
       ∃ f, In f (input_paths s) ∧
            path = joinpath d (stem f +:+ "_nobg.png")) ∧
    (∀ path, (∀ f, In f (input_paths s) → path ≠ out_path d f) →
       files (world s') !! path = files (world s) !! path) ∧
    (∀ path, ends_with "_nobg.png" (name path) = false →
       files (world s') !! path = files (world s) !! path) ∧
    (∀ path, is_Some (files (world s) !! path) →
       is_Some (files (world s') !! path)).

(** ** Cropping *)

(** [written] shows every non-transparent pixel of [out], moved by
    [(l, u)], and is no larger than [out]. *)
Definition keeps_visible_pixels (out written : Image) (l u : nat) : Prop :=
  width written ≤ width out ∧ height written ≤ height out ∧
  ∀ x y, x < width out → y < height out → opaque_at out x y = true →
    l ≤ x ∧ u ≤ y ∧ x - l < width written ∧ y - u < height written ∧
    getpixel written (x - l) (y - u) = getpixel out x y.

(** No file can be decoded. *)
Definition env_corrupt : Env :=
  {| mkdir_error := fun _ _ => None;
     mkdir_made := fun _ _ => 0;
     image_open := fun _ _ => inl (Exception "cannot identify image file");
     remove := fun im => inr im;
     save_error := fun _ _ _ => None |}.

(** ** A session of the plain program (src/noback.py) *)

(** What the user does: the three selection buttons, the drop target and
    the start button that [App.__init__] and [App._build_ui] bind.  Each
    action carries what its dialog returns, the directory tree its handler
    sees, or what the libraries do during that run. *)
Inductive Action : Type :=
| ClickFiles (picked : list Path)
| ClickFolder (t : tree) (folder : option Path)
| ClickOutput (folder : option Path)
| Drop (t : tree) (paths : list Path)
| ClickStart (env : Env).

(** [command=self.choose_files], [command=self.choose_folder],
    [command=self.choose_output], [dnd_bind("<<Drop>>", self.on_drop)] and
    [command=self.process]. *)
Definition callback (a : Action) : M unit :=
  match a with
  | ClickFiles picked => choose_files picked
  | ClickFolder t folder => choose_folder t folder
  | ClickOutput folder => choose_output folder
  | Drop t paths => on_drop t paths
  | ClickStart env => V1.process env
  end.

(** [App().mainloop()]: the callbacks run one after the other, [process]
    returning before the next event is handled (it calls
    [update_idletasks] only); Tk reports an exception of a callback and
    goes on. *)
Fixpoint mainloop (acts : list Action) : M unit :=
  match acts with
  | [] => ret tt
  | a :: rest => try_except (callback a) (fun _ => ret tt) ;; mainloop rest
  end.

(** [App.__init__]: [self.input_paths = []], [self.output_dir = None]. *)
Definition App_init (w : World) : State := mkState [] None [] w [] [].

(** The paths an action puts in the work list. *)
Definition selection (a : Action) : list Path :=
  match a with
  | ClickFiles picked => picked
  | ClickFolder t (Some d) => folder_images t d
  | Drop t paths =>
      match on_drop_loop t paths [] with inr l => l | inl _ => [] end
  | _ => []
  end.

(** ** The progress display of Version 0002

    [NoBackApp.set_progress]:
<<
  w = max(0, min(1, fraction)) * self.pb_w
  self.pb_canvas.coords(self.pb_bar, 0, 0, w, self.pb_h)
  pct = int(round(fraction * 100))
  self.pb_canvas.itemconfigure(self.pb_text, text=f"{pct}%")
>>
    [fraction] is a Python float, a double: [0.0], [idx / total] or [1.0].
    A double is kept as the fraction it stands for, and an operation on
    doubles gives the double nearest to the exact result.  Infinities, NaN
    and the subnormal range are left out: the values of a run lie between
    [1 / total] and [pb_w]. *)

(** The binary exponent [e] of a positive fraction:
    [2 ^ e <= q < 2 ^ (e + 1)]. *)
Definition exponent (q : Q) : Z :=
  let k := (Z.log2 (Qnum q) - Z.log2 (Zpos (Qden q)))%Z in
  if Qlt_le_dec q (2 ^ k) then (k - 1)%Z else k.

(** [round(x)]: the nearest integer, the even one of the two when [x] lies
    half-way. *)
Definition py_round (x : Qc) : Z :=
  let n := Qfloor x in
  match (x - inject_Z n ?= 1 # 2)%Q with
  | Lt => n
  | Gt => (n + 1)%Z
  | Eq => if Z.even n then n else (n + 1)%Z
  end.

(** The double nearest to a positive fraction: a significand of 53 bits,
    ties to the even one. *)
Definition nearest_double (q : Q) : Q :=
  let e := (exponent q - 52)%Z in
  (inject_Z (py_round (Q2Qc (q / 2 ^ e))) * 2 ^ e)%Q.

Definition binary64 (q : Qc) : Qc :=
  match (q ?= 0)%Qc with
  | Eq => 0%Qc
  | Gt => Q2Qc (nearest_double q)
  | Lt => (- Q2Qc (nearest_double (- q)))%Qc
  end.

(** [a * b] on Python numbers of which one is a float; the product of two
    of the integers used here is a double too. *)
Definition float_mul (a b : Qc) : Qc := binary64 (a * b)%Qc.

(** [self.pb_w = 760 - 24] *)
Definition pb_w : Qc := Q2Qc (inject_Z (760 - 24)).

(** [min(a, b)] and [max(a, b)]: the first argument unless the second is
    smaller, resp. larger. *)
Definition py_min (a b : Qc) : Qc := if Qclt_le_dec b a then b else a.
Definition py_max (a b : Qc) : Qc := if Qclt_le_dec a b then b else a.

(** [w], the right edge given to the bar. *)
Definition bar_width (fraction : Qc) : Qc :=
  float_mul (py_max 0 (py_min 1 fraction)) pb_w.

(** [pct], the number written in the label. *)
Definition percent (fraction : Qc) : Z :=
  py_round (float_mul fraction (Q2Qc (inject_Z 100))).

(** What a call [set_progress(fraction)] shows, [fraction] a double. *)
Definition shown_by (fraction : Qc) : Qc * Z :=
  (bar_width fraction, percent fraction).

(** The double that [set_progress] gets where the trace has the exact
    value: [0.0], [1.0], and the double nearest to [idx / total], which is
    what the division of two integers gives. *)
Definition display (e : Event) : option (Qc * Z) :=
  match e with SetProgress q => Some (shown_by (binary64 q)) | _ => None end.

Definition displays (tr : list Event) : list (Qc * Z) := omap display tr.

(** One display comes no later than another: neither the bar nor the
    number goes back. *)
Definition display_le (x y : Qc * Z) : Prop :=
  (x.1 <= y.1)%Qc ∧ (x.2 ≤ y.2)%Z.

(** ** Start-up: the virtual environment

    Both programs begin with the same code (src/noback.py and
    src/Version 0002/noback.py; the printed texts differ):
<<
  VENV_DIR = os.path.expanduser("~/.noback_venv")
  PYTHON_BIN = os.path.join(VENV_DIR, "bin", "python3")
  ...
  ensure_venv()
  restart_in_venv()
>> *)

Module Launcher.

(** The three messages printed. *)
Inductive Msg : Type := MsgCreate | MsgInstall | MsgRestart.

(** The calls made on the operating system, in their order. *)
Inductive Call : Type :=
| PrintMsg (m : Msg)
| CheckCall (cmd : list string)                (* subprocess.check_call(cmd) *)
| Execv (path : string) (args : list string).  (* os.execv(path, args) *)

(** A running interpreter: [sys.executable] and [sys.argv]. *)
Record Proc : Type := mkProc { executable : string; argv : list string }.

(** What the operating system does, given the calls made so far. *)
Record Os : Type := mkOs {
  (* os.path.expanduser("~/.noback_venv") *)
  VENV_DIR : string;
  (* os.path.exists(path) *)
  path_there : list Call -> string -> bool;
  (* the exception of check_call(cmd), if it raises: the command cannot be
     started or returns a non-zero status *)
  check_call_error : list Call -> list string -> option Exn;
  (* the exception of os.execv(path, args), if it raises *)
  execv_error : list Call -> string -> list string -> option Exn;
  (* the interpreter that runs the script once execv(path, args) has
     replaced the process *)
  started : string -> list string -> Proc;
}.

(** [os.path.join(a, b)] on POSIX. *)
Definition join2 (a b : string) : string :=
  if String.prefix "/" b then b
  else if String.eqb a "" || ends_with "/" a then a +:+ b
  else a +:+ "/" +:+ b.

Definition join (a : string) (ps : list string) : string := fold_left join2 ps a.

Definition PYTHON_BIN (os : Os) : string := join (VENV_DIR os) ["bin"; "python3"].

(** Code that makes calls and can raise. *)
Definition L (A : Type) : Type := list Call -> (Exn + A) * list Call.

Definition lret {A} (a : A) : L A := fun tr => (inr a, tr).

Definition lbind {A B} (m : L A) (k : A -> L B) : L B :=
  fun tr => match m tr with
            | (inr a, tr') => k a tr'
            | (inl e, tr') => (inl e, tr')
            end.

Definition lraise {A} (e : Exn) : L A := fun tr => (inl e, tr).

Definition history : L (list Call) := fun tr => (inr tr, tr).

Definition call (c : Call) : L unit := fun tr => (inr tt, tr ++ [c]).

Definition print (m : Msg) : L unit := call (PrintMsg m).

Definition check_call (os : Os) (cmd : list string) : L unit :=
  lbind history (fun tr =>
  lbind (call (CheckCall cmd)) (fun _ =>
  match check_call_error os tr cmd with
  | Some e => lraise e
  | None => lret tt
  end)).

Definition venv_command (os : Os) (p : Proc) : list string :=
  [executable p; "-m"; "venv"; VENV_DIR os].

Definition pip_upgrade (os : Os) : list string :=
  [PYTHON_BIN os; "-m"; "pip"; "install"; "--upgrade"; "pip"].

Definition pip_install (os : Os) : list string :=
  [PYTHON_BIN os; "-m"; "pip"; "install";
   "rembg"; "pillow"; "onnxruntime"; "tkinterdnd2"].

(** [ensure_venv]:
<<
  if not os.path.exists(PYTHON_BIN):
      print(...)
      subprocess.check_call([sys.executable, "-m", "venv", VENV_DIR])
  print(...)
  subprocess.check_call([PYTHON_BIN, "-m", "pip", "install", "--upgrade", "pip"])
  subprocess.check_call([PYTHON_BIN, "-m", "pip", "install",
                         "rembg", "pillow", "onnxruntime", "tkinterdnd2"])
>> *)
Definition ensure_venv (os : Os) (p : Proc) : L unit :=
  lbind history (fun tr =>
  lbind (if path_there os tr (PYTHON_BIN os) then lret tt
         else lbind (print MsgCreate) (fun _ =>
              check_call os (venv_command os p))) (fun _ =>
  lbind (print MsgInstall) (fun _ =>
  lbind (check_call os (pip_upgrade os)) (fun _ =>
  check_call os (pip_install os))))).

(** How [restart_in_venv] ends when it does not raise: it returns, or the
    process has been replaced and the script starts again. *)
Inductive Next : Type := Returned | Replaced (p : Proc).

(** [restart_in_venv]:
<<
  if sys.executable != PYTHON_BIN:
      print(...)
      os.execv(PYTHON_BIN, [PYTHON_BIN] + sys.argv)
>> *)
Definition restart_in_venv (os : Os) (p : Proc) : L Next :=
  if String.eqb (executable p) (PYTHON_BIN os) then lret Returned
  else
    lbind (print MsgRestart) (fun _ =>
    lbind history (fun tr =>
    let args := PYTHON_BIN os :: argv p in
    lbind (call (Execv (PYTHON_BIN os) args)) (fun _ =>
    match execv_error os tr (PYTHON_BIN os) args with
    | Some e => lraise e
    | None => lret (Replaced (started os (PYTHON_BIN os) args))
    end))).

(** The top of the script, in one interpreter. *)
Definition prologue (os : Os) (p : Proc) : L Next :=
  lbind (ensure_venv os p) (fun _ => restart_in_venv os p).

(** How a launch ends: the script goes on to its imports and the
    application in interpreter [p], it dies of an exception, or it is still
    restarting when [fuel] replacements have been followed. *)
Inductive Outcome : Type :=
| Application (p : Proc)
| Died (e : Exn)
| Restarting (p : Proc).

Fixpoint launch (fuel : nat) (os : Os) (p : Proc) (tr : list Call)
  : Outcome * list Call :=
  match prologue os p tr with
  | (inl e, tr') => (Died e, tr')
  | (inr Returned, tr') => (Application p, tr')
  | (inr (Replaced p'), tr') =>
      match fuel with
      | 0 => (Restarting p', tr')
      | S fuel' => launch fuel' os p' tr'
      end
  end.

(** The commands run and the replacements made, read off the calls. *)
Definition command (c : Call) : option (list string) :=
  match c with CheckCall cmd => Some cmd | _ => None end.

Definition commands (tr : list Call) : list (list string) := omap command tr.

Definition replacement (c : Call) : option (string * list string) :=
  match c with Execv path args => Some (path, args) | _ => None end.

Definition replacements (tr : list Call) : list (string * list string) :=
  omap replacement tr.

(** The commands [ensure_venv] means to run, from the calls [tr] on. *)
Definition plan (os : Os) (p : Proc) (tr : list Call) : list (list string) :=
  (if path_there os tr (PYTHON_BIN os) then [] else [venv_command os p]) ++
  [pip_upgrade os; pip_install os].

End Launcher.

(** ** Start-up, in words of lists *)


(** An operating system on which every command and every replacement
    works, the environment is not there at first, and the interpreter of
    the environment reports its own path. *)
Definition os_fresh : Launcher.Os :=
  {| Launcher.VENV_DIR := "/home/u/.noback_venv";
     Launcher.path_there := fun tr _ =>
       bool_decide (Launcher.commands tr ≠ []);
     Launcher.check_call_error := fun _ _ => None;
     Launcher.execv_error := fun _ _ _ => None;
     Launcher.started := fun path args => Launcher.mkProc path (tail args) |}.

(** As [os_fresh], but [pip install] of the packages fails. *)
Definition os_offline : Launcher.Os :=
  {| Launcher.VENV_DIR := "/home/u/.noback_venv";
     Launcher.path_there := fun tr _ =>
       bool_decide (Launcher.commands tr ≠ []);
     Launcher.check_call_error := fun _ cmd =>
       if bool_decide (cmd = Launcher.pip_install os_fresh)
       then Some (Exception "returned non-zero exit status 1") else None;
     Launcher.execv_error := fun _ _ _ => None;
     Launcher.started := fun path args => Launcher.mkProc path (tail args) |}.

Definition system_python : Launcher.Proc :=
  Launcher.mkProc "/usr/bin/python3" ["noback.py"].


(** * Properties *)

(** ** One call of [process_image] *)

Ltac run_monad :=
  unfold bind, ret, raise, get, modify, try_except, append_log,
    progress_configure, set_progress, showwarning; simpl.

Lemma V1_process_image_cases env in_path d s :
  process_image_cases (fun out => out) env in_path d s
    (V1.process_image env in_path d s).
Proof.
  unfold process_image_cases, V1.process_image, mkdir, open_rgba,
    rembg_remove, save_png.
  run_monad.
  destruct (mkdir_error env (world s) d); [reflexivity|]. simpl.
  unfold after_mkdir.
  destruct (image_open env _ in_path) as [e|im]; [reflexivity|]. simpl.
  destruct (remove env im) as [e|out]; [reflexivity|]. simpl.
  destruct (save_error env _ _ out); reflexivity.
Qed.

Lemma V2_process_image_cases env in_path d s :
  process_image_cases cropped env in_path d s
    (V2.process_image env in_path d s).
Proof.
  unfold process_image_cases, V2.process_image, mkdir, open_rgba,
    rembg_remove, save_png, cropped.
  run_monad.
  destruct (mkdir_error env (world s) d); [reflexivity|]. simpl.
  unfold after_mkdir.
  destruct (image_open env _ in_path) as [e|im]; [reflexivity|]. simpl.
  destruct (remove env im) as [e|out]; [reflexivity|]. simpl.
  destruct (save_error env _ _ _); reflexivity.
Qed.

Lemma process_image_cases_post post env in_path d s res :
  process_image_cases post env in_path d s res →
  process_image_post in_path d s res.
Proof.
  unfold process_image_cases, process_image_post.
  destruct (mkdir_error env (world s) d); [intros ->; simpl; auto 10|].
  destruct (image_open env _ in_path) as [e|im]; [intros ->; simpl; auto 10|].
  destruct (remove env im) as [e|out]; [intros ->; simpl; auto 10|].
  destruct (save_error env _ _ _); intros ->; simpl; [auto 10|].
  repeat split; eauto.
Qed.

(** ** The per-item loop *)

Section Loop.

Variable body : nat -> Path -> M unit.
Variable ev : nat -> Result -> list Event.
Variable d : Path.
Variable Inv : World -> Prop.
Variable P : Path -> Exn + Path -> Prop.

Hypothesis body_step : ∀ idx f s, Inv (world s) → ∃ r s',
  body idx f s = (inr tt, s') ∧ P f r ∧ Inv (world s') ∧
  item_step d (ev idx (f, r)) (f, r) s s'.

Lemma for_enumerate_steps l : ∀ idx s, Inv (world s) → ∃ rs ws s',
  for_enumerate idx l body s = (inr tt, s') ∧
  map fst rs = l ∧ Forall (fun r => P r.1 r.2) rs ∧ Inv (world s') ∧
  run_steps d (run_events ev idx rs) rs ws s s'.
Proof.
  induction l as [|f l IH]; intros idx s HI.
  - exists [], [], s. unfold run_steps. simpl.
    rewrite !app_nil_r. repeat split; auto.
  - destruct (body_step idx f s HI)
      as (r & s1 & Hb & HP & HI1 & Hi1 & Ho1 & Hg1 & Ha1 & Hw1).
    destruct (IH (S idx) s1 HI1)
      as (rs & ws & s' & Hl & Hm & HF & HI' & Hi & Ho & Hg & Ha & Hw & Hp & Hout & Hf).
    simpl in Ha1, Hw1.
    destruct r as [e|out].
    + destruct Hw1 as [Hw1 Hf1].
      exists ((f, inl e) :: rs), ws, s'. simpl. unfold bind. rewrite Hb, Hl.
      split; [reflexivity|]. split; [by rewrite Hm|].
      split; [by constructor|]. split; [done|]. unfold run_steps. simpl.
      rewrite Hi, Ho, Hg, Ha, Hw, Hf, Hi1, Ho1, Hg1, Ha1, Hw1, Hf1, <- !app_assoc.
      repeat split; auto. constructor; [|done]. simpl. congruence.
    + destruct Hw1 as [-> (img & Hw1 & Hf1)].
      exists ((f, inr (out_path d f)) :: rs), ((out_path d f, img) :: ws), s'.
      simpl. unfold bind. rewrite Hb, Hl.
      split; [reflexivity|]. split; [by rewrite Hm|].
      split; [by constructor|]. split; [done|]. unfold run_steps. simpl.
      rewrite Hi, Ho, Hg, Ha, Hw, Hf, Hi1, Ho1, Hg1, Ha1, Hw1, Hf1, <- !app_assoc, Hp.
      repeat split; auto. constructor; [|done]. simpl. congruence.
Qed.

End Loop.

(** The rounds of the two programs. *)

Lemma V1_process_item_step env d idx f s : ∃ r s',
  V1.process_item env d idx f s = (inr tt, s') ∧
  r = (V1.process_image env f d s).1 ∧
  world s' = world (V1.process_image env f d s).2 ∧
  item_step d (V1_item_events idx (f, r)) (f, r) s s'.
Proof.
  pose proof (process_image_cases_post _ _ _ _ _ _
                (V1_process_image_cases env f d s)) as Hp.
  unfold process_image_post in Hp.
  unfold V1.process_item. run_monad.
  destruct (V1.process_image env f d s) as [[e|out] s1]; simpl in *.
  - eexists (inl e), _. split; [reflexivity|]. split; [reflexivity|].
    split; [reflexivity|].
    unfold item_step, V1_item_events, line_of; simpl.
    destruct Hp as (-> & -> & -> & -> & -> & ->).
    rewrite <- !app_assoc. repeat split; auto.
  - eexists (inr out), _. split; [reflexivity|]. split; [reflexivity|].
    split; [reflexivity|].
    unfold item_step, V1_item_events, line_of; simpl.
    destruct Hp as (-> & -> & -> & -> & -> & img & -> & ->).
    rewrite <- !app_assoc. repeat split; eauto.
Qed.

Lemma V2_process_item_step env d total idx f s : total ≠ 0 → ∃ r s',
  V2.process_item env d total idx f s = (inr tt, s') ∧
  r = (V2.process_image env f d
         (add_event (AppendLog (LogProcessing (name f))) s)).1 ∧
  world s' = world (V2.process_image env f d
         (add_event (AppendLog (LogProcessing (name f))) s)).2 ∧
  item_step d (V2_item_events total idx (f, r)) (f, r) s s'.
Proof.
  intros Htot.
  set (s0 := add_event (AppendLog (LogProcessing (name f))) s).
  pose proof (process_image_cases_post _ _ _ _ _ _
                (V2_process_image_cases env f d s0)) as Hp.
  unfold process_image_post in Hp.
  unfold V2.process_item, truediv. run_monad. fold s0.
  destruct (Nat.eqb_spec total 0) as [|_]; [done|].
  destruct (V2.process_image env f d s0) as [[e|out] s1]; simpl in *.
  - eexists (inl e), _. split; [reflexivity|]. split; [reflexivity|].
    split; [reflexivity|].
    unfold item_step, V2_item_events, line_of, fraction; simpl.
    destruct Hp as (-> & -> & -> & -> & -> & ->).
    rewrite <- !app_assoc. repeat split; auto.
  - eexists (inr out), _. split; [reflexivity|]. split; [reflexivity|].
    split; [reflexivity|].
    unfold item_step, V2_item_events, line_of, fraction; simpl.
    destruct Hp as (-> & -> & -> & -> & -> & img & -> & ->).
    rewrite <- !app_assoc. repeat split; eauto.
Qed.

Lemma run_steps_frame d pre evs post rs ws s s0 s1 s' :
  s0 = fold_left (fun s e => add_event e s) pre s →
  s' = fold_left (fun s e => add_event e s) post s1 →
  run_steps d evs rs ws s0 s1 →
  run_steps d (pre ++ evs ++ post) rs ws s s'.
Proof.
  intros -> -> (Hi & Ho & Hg & Ha & Hw & Hrest).
  assert (Hfold : ∀ l t, let t' := fold_left (fun s e => add_event e s) l t in
            input_paths t' = input_paths t ∧ output_dir t' = output_dir t ∧
            gui t' = gui t ++ l ∧ attempts t' = attempts t ∧
            writes t' = writes t ∧ world t' = world t).
  { induction l as [|e l IH]; intros t; simpl.
    - rewrite app_nil_r. auto 10.
    - destruct (IH (add_event e t)) as (-> & -> & -> & -> & -> & ->).
      simpl. rewrite <- app_assoc. auto 10. }
  destruct (Hfold pre s) as (Hi0 & Ho0 & Hg0 & Ha0 & Hw0 & Hwd0).
  destruct (Hfold post s1) as (Hi1 & Ho1 & Hg1 & Ha1 & Hw1 & Hwd1).
  simpl in *. unfold run_steps.
  rewrite Hi1, Ho1, Hg1, Ha1, Hw1, Hwd1, Hi, Ho, Hg, Ha, Hw, Hi0, Ho0, Hg0, Ha0, Hw0.
  destruct Hrest as (? & ? & Hf). rewrite Hf, Hwd0, <- !app_assoc.
  repeat split; auto.
Qed.

Lemma V1_process_run (Inv : World -> Prop) (P : Path -> Exn + Path -> Prop)
    env d s :
  input_paths s ≠ [] → output_dir s = Some d → Inv (world s) →
  (∀ f s0, Inv (world s0) →
     P f (V1.process_image env f d s0).1 ∧
     Inv (world (V1.process_image env f d s0).2)) →
  ∃ rs ws s',
    V1.process env s = (inr tt, s') ∧
    map fst rs = input_paths s ∧ Forall (fun r => P r.1 r.2) rs ∧
    Inv (world s') ∧
    run_steps d (V1_run_events rs) rs ws s s'.
Proof.
  intros Hne Hd HI HP. unfold V1.process. run_monad. rewrite Hd.
  destruct (input_paths s) as [|f0 l0] eqn:Hl; [done|]. rewrite <- Hl.
  set (s0 := add_event (AppendLog (LogStart (length (input_paths s))))
               (add_event (ProgressConfigure (Some (length (input_paths s))) 0) s)).
  destruct (for_enumerate_steps (V1.process_item env d) V1_item_events d Inv P)
    with (l := input_paths s) (idx := 1) (s := s0)
    as (rs & ws & s1 & Hrun & Hm & HF & HI1 & Hsteps); [|done|].
  { intros idx f t Ht.
    destruct (V1_process_item_step env d idx f t) as (r & t' & ? & -> & Hw & ?).
    destruct (HP f t Ht). rewrite <- Hw in *. eauto 10. }
  rewrite Hrun. eexists rs, ws, _. split; [reflexivity|].
  split; [done|]. split; [done|]. split; [done|].
  assert (Hlen : length (input_paths s) = length rs)
    by (rewrite <- Hm; apply length_map).
  unfold V1_run_events. subst s0. rewrite Hlen in Hsteps.
  eapply run_steps_frame; [| |exact Hsteps]; reflexivity.
Qed.

Lemma V2_start_process_run (Inv : World -> Prop)
    (P : Path -> Exn + Path -> Prop) env d s :
  input_paths s ≠ [] → output_dir s = Some d → Inv (world s) →
  (∀ f s0, Inv (world s0) →
     P f (V2.process_image env f d s0).1 ∧
     Inv (world (V2.process_image env f d s0).2)) →
  ∃ rs ws s',
    V2.start_process env s = (inr tt, s') ∧
    map fst rs = input_paths s ∧ Forall (fun r => P r.1 r.2) rs ∧
    Inv (world s') ∧
    run_steps d (V2_run_events rs) rs ws s s'.
Proof.
  intros Hne Hd HI HP. unfold V2.start_process, V2._process_all. run_monad.
  rewrite Hd.
  destruct (input_paths s) as [|f0 l0] eqn:Hl; [done|]. rewrite <- Hl.
  set (s0 := add_event (SetProgress 0)
               (add_event (AppendLog (LogTotal (length (input_paths s)))) s)).
  destruct (for_enumerate_steps
              (V2.process_item env d (length (input_paths s)))
              (V2_item_events (length (input_paths s))) d Inv P)
    with (l := input_paths s) (idx := 1) (s := s0)
    as (rs & ws & s1 & Hrun & Hm & HF & HI1 & Hsteps); [|done|].
  { intros idx f t Ht.
    destruct (V2_process_item_step env d (length (input_paths s)) idx f t)
      as (r & t' & ? & -> & Hw & ?); [by rewrite Hl|].
    destruct (HP f (add_event (AppendLog (LogProcessing (name f))) t) Ht).
    rewrite <- Hw in *. eauto 10. }
  simpl. rewrite Hrun. eexists rs, ws, _. split; [reflexivity|].
  split; [done|]. split; [done|]. split; [done|].
  assert (Hlen : length (input_paths s) = length rs)
    by (rewrite <- Hm; apply length_map).
  unfold V2_run_events. subst s0. rewrite Hlen in Hsteps.
  eapply run_steps_frame; [| |exact Hsteps]; reflexivity.
Qed.

(** ** Reading a run's widget calls *)

Lemma result_lines_V1_items idx rs :
  result_lines (run_events V1_item_events idx rs) = map line_of rs.
Proof.
  revert idx. induction rs as [|r rs IH]; intros idx; [done|].
  simpl. unfold result_lines in *. simpl. rewrite IH.
  unfold line_of. by destruct (r.2).
Qed.

Lemma result_lines_V2_items total idx rs :
  result_lines (run_events (V2_item_events total) idx rs) = map line_of rs.
Proof.
  revert idx. induction rs as [|r rs IH]; intros idx; [done|].
  simpl. unfold result_lines in *. simpl. rewrite IH.
  unfold line_of. by destruct (r.2).
Qed.

Lemma configure_calls_V1_items idx rs :
  configure_calls (run_events V1_item_events idx rs) =
  map (fun i => (None, i)) (seq idx (length rs)).
Proof.
  revert idx. induction rs as [|r rs IH]; intros idx; [done|].
  simpl. unfold configure_calls in *. simpl. by rewrite IH.
Qed.

Lemma progress_calls_V2_items total idx rs :
  progress_calls (run_events (V2_item_events total) idx rs) =
  map (fraction total) (seq idx (length rs)).
Proof.
  revert idx. induction rs as [|r rs IH]; intros idx; [done|].
  simpl. unfold progress_calls in *. simpl. by rewrite IH.
Qed.

Lemma result_lines_V1_run rs : result_lines (V1_run_events rs) = map line_of rs.
Proof.
  unfold V1_run_events, result_lines. rewrite !omap_app.
  fold (result_lines (run_events V1_item_events 1 rs)).
  rewrite result_lines_V1_items. simpl. by rewrite app_nil_r.
Qed.

Lemma result_lines_V2_run rs : result_lines (V2_run_events rs) = map line_of rs.
Proof.
  unfold V2_run_events, result_lines. rewrite !omap_app.
  fold (result_lines (run_events (V2_item_events (length rs)) 1 rs)).
  rewrite result_lines_V2_items. simpl. by rewrite app_nil_r.
Qed.

Lemma configure_calls_V1_run rs :
  configure_calls (V1_run_events rs) =
  (Some (length rs), 0) :: map (fun i => (None, i)) (seq 1 (length rs)).
Proof.
  unfold V1_run_events, configure_calls. rewrite !omap_app.
  fold (configure_calls (run_events V1_item_events 1 rs)).
  rewrite configure_calls_V1_items. simpl. by rewrite app_nil_r.
Qed.

Lemma progress_calls_V2_run rs :
  progress_calls (V2_run_events rs) =
  0%Qc :: map (fraction (length rs)) (seq 1 (length rs)) ++ [1%Qc].
Proof.
  unfold V2_run_events, progress_calls. rewrite !omap_app.
  fold (progress_calls (run_events (V2_item_events (length rs)) 1 rs)).
  by rewrite progress_calls_V2_items.
Qed.

Lemma line_item_of rs : map line_item (map line_of rs) = map name (map fst rs).
Proof.
  induction rs as [|[f [e|out]] rs IH]; simpl; [done| |]; by rewrite IH.
Qed.

(** ** Fractions *)

Lemma fraction_lt total i j :
  total ≠ 0 → i < j → (fraction total i < fraction total j)%Qc.
Proof.
  intros Ht Hij. unfold fraction, Qclt. simpl. rewrite !Qred_correct.
  unfold Qlt. simpl. apply Z.mul_lt_mono_pos_r; lia.
Qed.

Lemma fraction_full total : total ≠ 0 → fraction total total = 1%Qc.
Proof.
  intros Ht. unfold fraction. apply Qc_is_canon. simpl.
  rewrite Qred_correct. unfold Qeq. simpl.
  rewrite Z.mul_1_r, Z.mul_1_l. destruct total; [done|].
  rewrite <- positive_nat_Z, Nat2Pos.id; lia.
Qed.

Lemma fraction_pos total i : 0 < i → (0 < fraction total i)%Qc.
Proof.
  intros Hi. unfold fraction, Qclt. simpl. rewrite !Qred_correct.
  unfold Qlt. simpl. lia.
Qed.

Lemma fraction_le_1 total i : total ≠ 0 → i ≤ total → (fraction total i <= 1)%Qc.
Proof.
  intros Ht Hi. rewrite <- (fraction_full total Ht).
  destruct (decide (i = total)) as [->|]; [apply Qcle_refl|].
  apply Qclt_le_weak, fraction_lt; lia.
Qed.

Lemma fractions_increasing total n : ∀ idx,
  total ≠ 0 → StronglySorted Qclt (map (fraction total) (seq idx n)).
Proof.
  induction n as [|n IH]; intros idx Ht; simpl; constructor; [by apply IH|].
  apply List.Forall_forall. intros q [i [<- Hi%in_seq]]%in_map_iff.
  apply fraction_lt; lia.
Qed.

(** ** C2: progress and result calls of a run *)

Lemma C2_counterexample :
  let s' := (V2.start_process env_ok
               (initial [["in"; "a.png"]] (Some ["out"]))).2 in
  length (progress_calls (gui s')) ≠ 1 ∧
  ¬ StronglySorted Qclt (progress_calls (gui s')).
Proof.
  split.
  - vm_compute. discriminate.
  - intros H. vm_compute in H.
    inversion H as [|? ? H1 _]; subst. inversion H1 as [|? ? _ H2]; subst.
    inversion H2 as [|? ? Hlt _]; subst. vm_compute in Hlt. discriminate.
Qed.

(** C2 (amended): for a non-empty work list of [N] items, V2 calls
    [set_progress] [N + 2] times -- with 0 before the first item, with
    [i / N] after item [i], and with 1 once more after the loop -- and V1
    configures its progress bar [N + 1] times -- to 0 of [N] first, then to
    [i] after item [i].  The per-item values [i / N] increase strictly, lie
    in (0, 1], and the last one is exactly 1.  Both programs log exactly
    [N] result lines, for the items of the work list in their order. *)
Theorem C2_progress_and_results env s d :
  input_paths s ≠ [] → output_dir s = Some d →
  let N := length (input_paths s) in
  (∃ s' tr, V2.start_process env s = (inr tt, s') ∧ gui s' = gui s ++ tr ∧
     progress_calls tr = 0%Qc :: map (fraction N) (seq 1 N) ++ [1%Qc] ∧
     length (result_lines tr) = N ∧
     map line_item (result_lines tr) = map name (input_paths s)) ∧
  (∃ s' tr, V1.process env s = (inr tt, s') ∧ gui s' = gui s ++ tr ∧
     configure_calls tr =
       (Some N, 0) :: map (fun i => (None, i)) (seq 1 N) ∧
     length (result_lines tr) = N ∧
     map line_item (result_lines tr) = map name (input_paths s)) ∧
  StronglySorted Qclt (map (fraction N) (seq 1 N)) ∧
  fraction N N = 1%Qc ∧
  (∀ i, 1 ≤ i ≤ N → (0 < fraction N i)%Qc ∧ (fraction N i <= 1)%Qc).
Proof.
  intros Hne Hd N.
  assert (HN : N ≠ 0) by (subst N; destruct (input_paths s); done).
  split; [|split; [|split; [|split]]].
  - destruct (V2_start_process_run (fun _ => True) (fun _ _ => True) env d s)
      as (rs & ws & s' & Hrun & Hm & _ & _ & _ & _ & Hg & _); auto.
    exists s', (V2_run_events rs). split; [done|]. split; [done|].
    subst N. rewrite <- Hm, (length_map fst rs).
    by rewrite progress_calls_V2_run, result_lines_V2_run, line_item_of,
      length_map.
  - destruct (V1_process_run (fun _ => True) (fun _ _ => True) env d s)
      as (rs & ws & s' & Hrun & Hm & _ & _ & _ & _ & Hg & _); auto.
    exists s', (V1_run_events rs). split; [done|]. split; [done|].
    subst N. rewrite <- Hm, (length_map fst rs).
    by rewrite configure_calls_V1_run, result_lines_V1_run, line_item_of,
      length_map.
  - by apply fractions_increasing.
  - by apply fraction_full.
  - intros i [Hi1 Hi2]. split; [apply fraction_pos; lia|by apply fraction_le_1].
Qed.

Lemma C2_witness :
  let s := initial [["in"; "a.png"]; ["in"; "b.png"]; ["in"; "c.jpg"]]
                   (Some ["out"]) in
  let N := length (input_paths s) in
  (∃ s' tr, V2.start_process env_b_fails s = (inr tt, s') ∧
     gui s' = gui s ++ tr ∧
     progress_calls tr = 0%Qc :: map (fraction N) (seq 1 N) ++ [1%Qc] ∧
     length (result_lines tr) = N ∧
     map line_item (result_lines tr) = map name (input_paths s)) ∧
  (∃ s' tr, V1.process env_b_fails s = (inr tt, s') ∧ gui s' = gui s ++ tr ∧
     configure_calls tr =
       (Some N, 0) :: map (fun i => (None, i)) (seq 1 N) ∧
     length (result_lines tr) = N ∧
     map line_item (result_lines tr) = map name (input_paths s)) ∧
  StronglySorted Qclt (map (fraction N) (seq 1 N)) ∧
  fraction N N = 1%Qc ∧
  (∀ i, 1 ≤ i ≤ N → (0 < fraction N i)%Qc ∧ (fraction N i <= 1)%Qc).
Proof.
  apply (C2_progress_and_results env_b_fails
           (initial [["in"; "a.png"]; ["in"; "b.png"]; ["in"; "c.jpg"]]
                    (Some ["out"])) ["out"]).
  - simpl. discriminate.
  - reflexivity.
Defined.

(** ** C3: a failing item does not stop the run *)

Lemma item_fails_raises post env d f e s res :
  item_fails post env d f e →
  process_image_cases post env f d s res →
  res.1 = inl e.
Proof.
  intros Hf. destruct (Hf (world s)) as [Hmk Hrest].
  unfold process_image_cases. rewrite Hmk.
  destruct (image_open env _ f) as [e'|im]; [by intros ->; subst|].
  destruct (remove env im) as [e'|out]; [by intros ->; subst|].
  rewrite Hrest. by intros ->.
Qed.

Lemma results_split (rs : list Result) l1 f l2 :
  map fst rs = l1 ++ f :: l2 →
  ∃ rs1 r rs2, rs = rs1 ++ (f, r) :: rs2 ∧ map fst rs1 = l1 ∧ map fst rs2 = l2.
Proof.
  intros (rs1 & rs' & -> & H1 & H2)%map_eq_app.
  apply map_eq_cons in H2 as ([f' r] & rs2 & -> & Hf & H2). simpl in Hf.
  subst f'. eauto 10.
Qed.

(** C3: whatever else happens, when the processing of one item [f] of the
    work list raises [e], the run still returns normally; every item of the
    list is passed to [process_image] once, in order; the result line of
    [f] is the failure line with [e], between one result line for each item
    before it and one for each item after it; and the progress display ends
    at the full value ([N] of [N] in V1, exactly 1 in V2). *)
Theorem C3_failure_isolation env s d l1 f l2 e :
  input_paths s = l1 ++ f :: l2 → output_dir s = Some d →
  let N := length (input_paths s) in
  (item_fails (fun out => out) env d f e →
   ∃ s' tr ls1 ls2,
     V1.process env s = (inr tt, s') ∧ gui s' = gui s ++ tr ∧
     attempts s' = attempts s ++ l1 ++ f :: l2 ∧
     result_lines tr = ls1 ++ LogErr (name f) e :: ls2 ∧
     map line_item ls1 = map name l1 ∧ map line_item ls2 = map name l2 ∧
     last (configure_calls tr) = Some (None, N)) ∧
  (item_fails cropped env d f e →
   ∃ s' tr ls1 ls2,
     V2.start_process env s = (inr tt, s') ∧ gui s' = gui s ++ tr ∧
     attempts s' = attempts s ++ l1 ++ f :: l2 ∧
     result_lines tr = ls1 ++ LogErr (name f) e :: ls2 ∧
     map line_item ls1 = map name l1 ∧ map line_item ls2 = map name l2 ∧
     last (progress_calls tr) = Some 1%Qc ∧ fraction N N = 1%Qc).
Proof.
  intros Hl Hd N.
  assert (Hne : input_paths s ≠ []) by (rewrite Hl; by destruct l1).
  assert (HN : N = S (length l1 + length l2)).
  { subst N. rewrite Hl, length_app. simpl. lia. }
  split; intros Hfail.
  - destruct (V1_process_run (fun _ => True)
                (fun f' r => f' = f → r = inl e) env d s)
      as (rs & ws & s' & Hrun & Hm & HF & _ & _ & _ & Hg & Ha & _); auto.
    { intros f' s0 _. split; [|done]. intros ->.
      eapply item_fails_raises; [done|]. apply V1_process_image_cases. }
    rewrite Hl in Hm. destruct (results_split _ _ _ _ Hm)
      as (rs1 & r & rs2 & -> & H1 & H2).
    apply Forall_app in HF as [_ HF]. apply Forall_cons in HF as [Hr _].
    simpl in Hr. rewrite (Hr eq_refl) in *.
    exists s', (V1_run_events (rs1 ++ (f, inl e) :: rs2)),
      (map line_of rs1), (map line_of rs2).
    split; [done|]. split; [done|]. split; [by rewrite Ha, Hm|].
    rewrite result_lines_V1_run, map_app, !line_item_of, H1, H2.
    do 3 (split; [done|]).
    rewrite configure_calls_V1_run, length_app. simpl.
    rewrite <- H1, <- H2, !length_map in HN. rewrite HN.
    replace (length rs1 + S (length rs2)) with (S (length rs1 + length rs2)) by lia.
    rewrite seq_S, map_app. simpl. by rewrite app_comm_cons, last_snoc.
  - destruct (V2_start_process_run (fun _ => True)
                (fun f' r => f' = f → r = inl e) env d s)
      as (rs & ws & s' & Hrun & Hm & HF & _ & _ & _ & Hg & Ha & _); auto.
    { intros f' s0 _. split; [|done]. intros ->.
      eapply item_fails_raises; [done|]. apply V2_process_image_cases. }
    rewrite Hl in Hm. destruct (results_split _ _ _ _ Hm)
      as (rs1 & r & rs2 & -> & H1 & H2).
    apply Forall_app in HF as [_ HF]. apply Forall_cons in HF as [Hr _].
    simpl in Hr. rewrite (Hr eq_refl) in *.
    exists s', (V2_run_events (rs1 ++ (f, inl e) :: rs2)),
      (map line_of rs1), (map line_of rs2).
    split; [done|]. split; [done|]. split; [by rewrite Ha, Hm|].
    rewrite result_lines_V2_run, map_app, !line_item_of, H1, H2.
    do 3 (split; [done|]).
    split; [|apply fraction_full; lia].
    rewrite progress_calls_V2_run.
    by rewrite app_comm_cons, last_snoc.
Qed.

Lemma C3_witness :
  let s := initial [["in"; "a.png"]; ["in"; "b.png"]; ["in"; "c.jpg"]]
                   (Some ["out"]) in
  item_fails (fun out => out) env_b_fails ["out"] ["in"; "b.png"] model_error ∧
  item_fails cropped env_b_fails ["out"] ["in"; "b.png"] model_error ∧
  (∃ s' tr ls1 ls2,
     V1.process env_b_fails s = (inr tt, s') ∧ gui s' = gui s ++ tr ∧
     attempts s' = attempts s ++ [["in"; "a.png"]] ++ ["in"; "b.png"] :: [["in"; "c.jpg"]] ∧
     result_lines tr = ls1 ++ LogErr "b.png" model_error :: ls2 ∧
     map line_item ls1 = ["a.png"] ∧ map line_item ls2 = ["c.jpg"] ∧
     last (configure_calls tr) = Some (None, 3)) ∧
  (∃ s' tr ls1 ls2,
     V2.start_process env_b_fails s = (inr tt, s') ∧ gui s' = gui s ++ tr ∧
     attempts s' = attempts s ++ [["in"; "a.png"]] ++ ["in"; "b.png"] :: [["in"; "c.jpg"]] ∧
     result_lines tr = ls1 ++ LogErr "b.png" model_error :: ls2 ∧
     map line_item ls1 = ["a.png"] ∧ map line_item ls2 = ["c.jpg"] ∧
     last (progress_calls tr) = Some 1%Qc ∧ fraction 3 3 = 1%Qc).
Proof.
  assert (H1 : item_fails (fun out => out) env_b_fails ["out"] ["in"; "b.png"]
                 model_error) by (intros w; split; reflexivity).
  assert (H2 : item_fails cropped env_b_fails ["out"] ["in"; "b.png"]
                 model_error) by (intros w; split; reflexivity).
  split; [exact H1|]. split; [exact H2|].
  destruct (C3_failure_isolation env_b_fails
              (initial [["in"; "a.png"]; ["in"; "b.png"]; ["in"; "c.jpg"]]
                       (Some ["out"]))
              ["out"] [["in"; "a.png"]] ["in"; "b.png"] [["in"; "c.jpg"]]
              model_error eq_refl eq_refl) as [HV1 HV2].
  split; [exact (HV1 H1)|exact (HV2 H2)].
Defined.

(** ** C1: the output directory cannot be created *)








(** ** C4: what a folder contributes *)

Lemma iter_images_in_dir_example :
  iter_images_in_dir example_folder []
  = inr [["a.png"]; ["c.JPG"]; ["sub"; "d.webp"]].
Proof. vm_compute. reflexivity. Qed.

(** C4: on a folder that holds a sub-directory named [x.png],
    [iter_images_in_dir] yields that sub-directory, which is not a regular
    file, next to the image [a.png]. *)
Theorem C4_directory_is_yielded :
  iter_images_in_dir folder_with_dir_png [] = inr [["a.png"]; ["x.png"]] ∧
  is_dir folder_with_dir_png ["x.png"] = inr true ∧
  is_file folder_with_dir_png ["x.png"] = inr false.
Proof. vm_compute. auto. Qed.

(** ** C7 and C9: a drop *)

(** Examining an entry: [is_file], [is_dir] and the start of [rglob] all
    come down to one [os.stat]. *)
Lemma examined t p :
  match stat_error t p with
  | Some e =>
      is_file t p = inl e ∧ is_dir t p = inl e ∧ iter_images_in_dir t p = inl e
  | None =>
      (∃ b, is_file t p = inr b) ∧ (∃ b, is_dir t p = inr b) ∧
      (∃ l, iter_images_in_dir t p = inr l) ∧
      (is_file t p = inr true → is_dir t p = inr false)
  end.
Proof.
  unfold stat_error, is_file, is_dir, iter_images_in_dir, rglob, scandir.
  destruct p as [|c p]; [by eauto 10|].
  destruct (stat_from t (c :: p)) as [e|[[]|]]; by eauto 10.
Qed.

(** One round of the loop, for an entry that can be examined and for one
    that cannot. *)
Lemma on_drop_step_returns t acc p :
  stat_error t p = None → on_drop_step t acc p = inr (acc ++ drop_entry t p).
Proof.
  intros Hp. pose proof (examined t p) as H. rewrite Hp in H.
  destruct H as ((bf & Hf) & (bd & Hd) & (l & Hl) & Hfd).
  unfold on_drop_step, drop_entry, folder_images. rewrite Hf, Hd, Hl.
  destruct bf; simpl.
  - rewrite (Hfd Hf) in Hd. injection Hd as <-.
    destruct (supported p); simpl; by rewrite ?app_nil_r.
  - destruct bd; simpl; by rewrite ?app_nil_r.
Qed.

Lemma on_drop_step_raises t acc p e :
  stat_error t p = Some e → on_drop_step t acc p = inl e.
Proof.
  intros Hp. pose proof (examined t p) as H. rewrite Hp in H.
  destruct H as (Hf & _). unfold on_drop_step. by rewrite Hf.
Qed.

(** The whole loop: it returns the concatenation of what the entries
    contribute, or it raises at the first entry that cannot be examined. *)
Lemma on_drop_loop_cases t paths : ∀ acc,
  (Forall (fun p => stat_error t p = None) paths ∧
   on_drop_loop t paths acc = inr (acc ++ flat_map (drop_entry t) paths)) ∨
  (∃ l1 p l2 e, paths = l1 ++ p :: l2 ∧
     Forall (fun q => stat_error t q = None) l1 ∧ stat_error t p = Some e ∧
     on_drop_loop t paths acc = inl e).
Proof.
  induction paths as [|p paths IH]; intros acc; simpl.
  { left. by rewrite app_nil_r. }
  destruct (stat_error t p) as [e|] eqn:Hp.
  - right. exists [], p, paths, e. rewrite (on_drop_step_raises _ _ _ _ Hp).
    by repeat split.
  - rewrite (on_drop_step_returns _ _ _ Hp).
    destruct (IH (acc ++ drop_entry t p))
      as [[Hall ->]|(l1 & q & l2 & e & -> & Hl1 & Hq & ->)].
    + left. split; [by constructor|]. by rewrite <- app_assoc.
    + right. exists (p :: l1), q, l2, e. split; [done|].
      split; [by constructor|done].
Qed.

Lemma on_drop_loop_returns t paths acc :
  Forall (fun p => stat_error t p = None) paths →
  on_drop_loop t paths acc = inr (acc ++ flat_map (drop_entry t) paths).
Proof.
  intros Hall.
  destruct (on_drop_loop_cases t paths acc)
    as [[_ ?]|(l1 & p & l2 & e & -> & _ & Hp & _)]; [done|].
  apply Forall_app in Hall as [_ Hall]. apply Forall_cons in Hall as [Hp' _].
  congruence.
Qed.


(** When the loop returns, every entry could be examined. *)
Lemma on_drop_loop_inr t paths acc l :
  on_drop_loop t paths acc = inr l →
  Forall (fun p => stat_error t p = None) paths ∧
  l = acc ++ flat_map (drop_entry t) paths.
Proof.
  intros Hl.
  destruct (on_drop_loop_cases t paths acc)
    as [[Hall E]|(l1 & p & l2 & e & _ & _ & _ & E)]; [|congruence].
  split; [done|]. congruence.
Qed.

Lemma C7_counterexample :
  let paths := [["ok.png"]; ["private"; "x.png"]] in
  let res := on_drop folder_private paths (initial [] None) in
  flat_map (drop_entry folder_private) paths = [["ok.png"]] ∧
  res.1 = inl PermissionError ∧
  input_paths res.2 ≠ flat_map (drop_entry folder_private) paths.
Proof. by vm_compute. Qed.



(** C9: when no entry of the payload contributes a file, [on_drop] leaves
    the application as it was: the work list chosen before is kept, and
    nothing is logged.  The handler returns, unless examining an entry
    raises. *)
Theorem C9_empty_drop_keeps_work_list t paths s :
  Forall (fun p => drop_entry t p = []) paths →
  (on_drop t paths s).2 = s ∧
  (Forall (fun p => stat_error t p = None) paths →
   on_drop t paths s = (inr tt, s)).
Proof.
  intros Hall.
  assert (Hnil : flat_map (drop_entry t) paths = []).
  { induction Hall as [|p paths Hp _ IH]; [done|]. simpl. by rewrite Hp, IH. }
  unfold on_drop. split.
  - destruct (on_drop_loop_cases t paths [])
      as [[_ ->]|(l1 & p & l2 & e & _ & _ & _ & ->)]; [|done].
    simpl. by rewrite Hnil.
  - intros Hok. rewrite (on_drop_loop_returns t paths [] Hok). simpl.
    by rewrite Hnil.
Qed.

Lemma C9_witness :
  let t := [File "b.txt"; Dir "empty" []; File "a.png"] in
  let s := initial [["a.png"]] None in
  Forall (fun p => drop_entry t p = []) [["b.txt"]; ["empty"]; ["missing.png"]] ∧
  on_drop t [["b.txt"]; ["empty"]; ["missing.png"]] s = (inr tt, s).
Proof.
  assert (H : Forall (fun p => drop_entry
                [File "b.txt"; Dir "empty" []; File "a.png"] p = [])
                [["b.txt"]; ["empty"]; ["missing.png"]])
    by (repeat constructor).
  split; [exact H|].
  apply (C9_empty_drop_keeps_work_list _ _ _ H). by repeat constructor.
Defined.

(** ** C8: duplicates in the work list *)

Lemma C8_counterexample :
  let s' := (on_drop folder_d [["d"]; ["d"; "a.png"]] (initial [] None)).2 in
  ¬ NoDup (input_paths s').
Proof.
  intros s' H. vm_compute in H.
  apply NoDup_cons in H as [H _]. apply H. left.
Qed.

Lemma rglob_node_shape n : ∀ parent x,
  In x (rglob_node parent n) →
  ∃ c rest, x = parent ++ node_name n :: c :: rest.
Proof.
  induction n as [nm|nm cs IH|nm|nm n' _|nm|nm] using node_induction;
    intros parent x Hx; try done.
  simpl in Hx. apply in_app_iff in Hx as [Hx|Hx].
  - apply in_map_iff in Hx as (c & <- & _). exists (node_name c), [].
    unfold joinpath. by rewrite <- app_assoc.
  - apply in_flat_map in Hx as (c & Hc & Hx).
    rewrite List.Forall_forall in IH.
    destruct (IH c Hc _ _ Hx) as (c' & rest & ->).
    exists (node_name c), (c' :: rest). unfold joinpath.
    by rewrite <- app_assoc.
Qed.

Lemma rglob_entries_shape here ns x :
  In x (rglob_entries here ns) →
  ∃ c rest, In c ns ∧ x = here ++ node_name c :: rest.
Proof.
  unfold rglob_entries. intros [Hx|Hx]%in_app_iff.
  - apply in_map_iff in Hx as (c & <- & Hc). by exists c, [].
  - apply in_flat_map in Hx as (c & Hc & Hx).
    destruct (rglob_node_shape _ _ _ Hx) as (c' & rest & ->). eauto.
Qed.




Lemma NoDup_rglob t folder l : rglob t folder = inr l → NoDup l.
Proof.
  unfold rglob. destruct (scandir t folder) as [e|[ns|]]; [done| |].
  - intros [= <-]. apply NoDup_remove_dups.
  - intros [= <-]. constructor.
Qed.

Lemma rglob_prefix t folder l x :
  rglob t folder = inr l → In x l → folder `prefix_of` x.
Proof.
  unfold rglob. destruct (scandir t folder) as [e|[ns|]]; [done| |].
  - intros [= <-] Hx.
    rewrite <- list_elem_of_In, elem_of_remove_dups, list_elem_of_In in Hx.
    apply rglob_entries_shape in Hx as (c & rest & _ & ->). by eexists.
  - by intros [= <-].
Qed.

Lemma folder_images_prefix t folder x :
  x ∈ folder_images t folder → folder `prefix_of` x.
Proof.
  unfold folder_images, iter_images_in_dir.
  destruct (rglob t folder) as [e|l] eqn:Hl; [by intros ?%elem_of_nil|].
  intros [_ Hx]%list_elem_of_filter.
  by apply (rglob_prefix t folder l), list_elem_of_In.
Qed.

Lemma NoDup_folder_images t folder : NoDup (folder_images t folder).
Proof.
  unfold folder_images, iter_images_in_dir.
  destruct (rglob t folder) as [e|l] eqn:Hl; [constructor|].
  by apply NoDup_filter, (NoDup_rglob t folder).
Qed.

Lemma drop_entry_prefix t p x : x ∈ drop_entry t p → p `prefix_of` x.
Proof.
  unfold drop_entry.
  destruct (yes (is_file t p) && supported p).
  - by intros ->%list_elem_of_singleton.
  - destruct (yes (is_dir t p)); [|by intros ?%elem_of_nil].
    apply folder_images_prefix.
Qed.

Lemma drop_entry_supported t p x : x ∈ drop_entry t p → supported x = true.
Proof.
  unfold drop_entry, folder_images, iter_images_in_dir.
  destruct (yes (is_file t p) && supported p) eqn:Hf.
  - intros ->%list_elem_of_singleton. by apply andb_true_iff in Hf as [_ ?].
  - destruct (yes (is_dir t p)); [|by intros ?%elem_of_nil].
    destruct (rglob t p); [by intros ?%elem_of_nil|].
    by intros [? _]%list_elem_of_filter.
Qed.

Lemma NoDup_drop_entry t p : NoDup (drop_entry t p).
Proof.
  unfold drop_entry.
  destruct (yes (is_file t p) && supported p); [apply NoDup_singleton|].
  destruct (yes (is_dir t p)); [|constructor].
  apply NoDup_folder_images.
Qed.

(** C8 (amended): the collector filters but does not deduplicate.  The list
    [on_drop] collects holds only paths with a supported extension, and it
    is free of duplicates when the entries of the payload are pairwise
    different and none lies inside another one that was dropped; so is what
    a single folder contributes. *)
Theorem C8_no_duplicates_for_unrelated_entries t paths :
  ForallOrdPairs unrelated paths →
  (∀ all_files, on_drop_loop t paths [] = inr all_files →
     NoDup all_files ∧ Forall (fun p => supported p = true) all_files) ∧
  (∀ folder l, iter_images_in_dir t folder = inr l → NoDup l).
Proof.
  intros Hpairs. split.
  - intros all_files [_ ->]%on_drop_loop_inr. simpl. split.
    + induction Hpairs as [|p paths Hp _ IH]; simpl; [constructor|].
      apply NoDup_app. split; [by apply NoDup_drop_entry|]. split; [|done].
      intros x Hx%drop_entry_prefix Hx'%list_elem_of_In.
      apply in_flat_map in Hx'
        as (q & Hq & Hx'%list_elem_of_In%drop_entry_prefix).
      rewrite List.Forall_forall in Hp. destruct (Hp q Hq) as [Hpq Hqp].
      destruct (prefix_weak_total _ _ _ Hx Hx'); done.
    + apply List.Forall_forall. intros x (p & _ & Hx)%in_flat_map.
      by apply (drop_entry_supported t p), list_elem_of_In.
  - intros folder l Hl. pose proof (NoDup_folder_images t folder) as H.
    unfold folder_images in H. by rewrite Hl in H.
Qed.

Lemma C8_witness :
  let t := [Dir "d" [File "a.png"; File "b.txt"]; File "c.jpg"; Dir "e" [File "a.png"]] in
  let paths := [["d"]; ["c.jpg"]; ["e"; "a.png"]] in
  ForallOrdPairs unrelated paths ∧
  (∃ all_files, on_drop_loop t paths [] = inr all_files ∧
     NoDup all_files ∧ Forall (fun p => supported p = true) all_files) ∧
  (∀ folder l, iter_images_in_dir t folder = inr l → NoDup l).
Proof.
  intros t paths.
  assert (Hp : ForallOrdPairs unrelated paths).
  { repeat constructor; intros [k Hk]; discriminate Hk. }
  split; [exact Hp|].
  destruct (C8_no_duplicates_for_unrelated_entries t paths Hp) as [Hall Hfolder].
  split; [|exact Hfolder].
  eexists. split; [reflexivity|]. by apply Hall.
Defined.

(** ** C5: cropping to the bounding box *)

Lemma find_app_split {A} (f : A -> bool) l1 l2 :
  List.find f (l1 ++ l2) =
  match List.find f l1 with Some x => Some x | None => List.find f l2 end.
Proof.
  induction l1 as [|a l1 IH]; simpl; [done|]. by destruct (f a).
Qed.

Lemma find_seq_none {A} (f : A -> bool) (l : list A) :
  (∀ j, In j l → f j = false) → List.find f l = None.
Proof.
  induction l as [|a l IH]; intros H; simpl; [done|].
  rewrite (H a) by (by left). apply IH. intros j Hj. apply H. by right.
Qed.

Lemma find_seq_first (f : nat -> bool) n k :
  k < n → f k = true → (∀ j, j < k → f j = false) →
  List.find f (seq 0 n) = Some k.
Proof.
  intros Hk Hf Hbefore.
  replace n with (k + S (n - S k)) by lia.
  rewrite seq_app, find_app_split. simpl.
  rewrite (find_seq_none f (seq 0 k)); [by rewrite Hf|].
  intros j Hj%in_seq. apply Hbefore. lia.
Qed.

Lemma find_seq_last (f : nat -> bool) n k :
  k < n → f k = true → (∀ j, k < j → j < n → f j = false) →
  List.find f (rev (seq 0 n)) = Some k.
Proof.
  intros Hk Hf Hafter.
  replace n with (S k + (n - S k)) by lia.
  rewrite seq_app, rev_app_distr, find_app_split.
  rewrite (find_seq_none f (rev (seq (0 + S k) (n - S k)))).
  - rewrite seq_S, rev_app_distr. simpl. by rewrite Hf.
  - intros j Hj%in_rev%in_seq. apply Hafter; lia.
Qed.

Lemma column_has_data_iff im x :
  column_has_data im x = true ↔ ∃ y, y < height im ∧ opaque_at im x y = true.
Proof.
  unfold column_has_data. rewrite existsb_exists. split.
  - intros (y & Hy%in_seq & H). exists y. split; [lia|done].
  - intros (y & Hy & H). exists y. split; [apply in_seq; lia|done].
Qed.

Lemma row_has_data_iff im y :
  row_has_data im y = true ↔ ∃ x, x < width im ∧ opaque_at im x y = true.
Proof.
  unfold row_has_data. rewrite existsb_exists. split.
  - intros (x & Hx%in_seq & H). exists x. split; [lia|done].
  - intros (x & Hx & H). exists x. split; [apply in_seq; lia|done].
Qed.

Lemma column_without_data im x :
  (∀ y, y < height im → opaque_at im x y = false) →
  column_has_data im x = false.
Proof.
  intros H. apply not_true_is_false.
  intros (y & Hy & Hop)%column_has_data_iff. rewrite H in Hop; done.
Qed.

Lemma row_without_data im y :
  (∀ x, x < width im → opaque_at im x y = false) →
  row_has_data im y = false.
Proof.
  intros H. apply not_true_is_false.
  intros (x & Hx & Hop)%row_has_data_iff. rewrite H in Hop; done.
Qed.

(** [getbbox] finds the rectangle the pixels occupy. *)
Lemma getbbox_occupies im box : occupies im box → getbbox im = Some box.
Proof.
  destruct box as [[[l u] r] b].
  intros (Hlr & Hr & Hub & Hb & Hin & Hl' & Hr' & Hu' & Hb').
  assert (Hout : ∀ x y, x < width im → y < height im →
            ¬ (l ≤ x ∧ x < r ∧ u ≤ y ∧ y < b) → opaque_at im x y = false).
  { intros x y Hx Hy Hn. apply not_true_is_false. intros Hop. by apply Hn, Hin. }
  unfold getbbox.
  rewrite (find_seq_first _ _ l), (find_seq_first _ _ u),
    (find_seq_last _ _ (r - 1)), (find_seq_last _ _ (b - 1)).
  - repeat f_equal; lia.
  - lia.
  - by apply row_has_data_iff.
  - intros j Hj Hjh. apply row_without_data. intros x Hx. apply Hout; lia.
  - lia.
  - by apply column_has_data_iff.
  - intros j Hj Hjw. apply column_without_data. intros y Hy. apply Hout; lia.
  - lia.
  - by apply row_has_data_iff.
  - intros j Hj. apply row_without_data. intros x Hx. apply Hout; lia.
  - lia.
  - by apply column_has_data_iff.
  - intros j Hj. apply column_without_data. intros y Hy. apply Hout; lia.
Qed.

Lemma getbbox_transparent im : fully_transparent im → getbbox im = None.
Proof.
  intros Ht. unfold getbbox.
  rewrite (find_seq_none (column_has_data im) (seq 0 (width im))); [done|].
  intros x Hx%in_seq. apply column_without_data. intros y Hy. apply Ht; lia.
Qed.

(** C5: when the directory can be made, the item decodes, the transform
    returns [out] and the save works, [process_image] returns and the file
    at the output path holds: in V2 (cropping) an image of the size of the
    rectangle the non-transparent pixels of [out] occupy, with the pixels
    of that rectangle -- and [out] itself when every pixel of [out] is
    fully transparent; in V1 (no cropping) [out] itself, on its full
    canvas. *)
Theorem C5_crop_policy env in_path d s im out :
  mkdir_error env (world s) d = None →
  image_open env (after_mkdir (world s) d) in_path = inr im →
  remove env im = inr out →
  (∀ img, save_error env (after_mkdir (world s) d) (out_path d in_path) img
          = None) →
  (∃ written s',
     V2.process_image env in_path d s = (inr (out_path d in_path), s') ∧
     files (world s') !! out_path d in_path = Some (Png written) ∧
     (∀ l u r b, occupies out (l, u, r, b) →
        dimensions written = (r - l, b - u) ∧
        ∀ x y, getpixel written x y = getpixel out (x + l) (y + u)) ∧
     (fully_transparent out → written = out)) ∧
  (∃ s',
     V1.process_image env in_path d s = (inr (out_path d in_path), s') ∧
     files (world s') !! out_path d in_path = Some (Png out)).
Proof.
  intros Hmk Hopen Hrem Hsave. split.
  - pose proof (V2_process_image_cases env in_path d s) as Hc.
    unfold process_image_cases in Hc.
    rewrite Hmk, Hopen, Hrem, Hsave in Hc.
    exists (cropped out), (saved_state s in_path d (cropped out)).
    split; [done|]. split; [apply lookup_insert_eq|]. split.
    + intros l u r b Hocc. unfold cropped.
      by rewrite (getbbox_occupies _ _ Hocc).
    + intros Ht. unfold cropped. by rewrite (getbbox_transparent _ Ht).
  - pose proof (V1_process_image_cases env in_path d s) as Hc.
    unfold process_image_cases in Hc.
    rewrite Hmk, Hopen, Hrem, Hsave in Hc.
    exists (saved_state s in_path d out).
    split; [done|]. apply lookup_insert_eq.
Qed.

Lemma two_opaque_occupies : occupies two_opaque (1, 1, 3, 2).
Proof.
  unfold occupies. simpl. repeat split; try lia.
  - destruct x as [|[|[|x]]]; [done|lia|lia|].
    destruct x; [|lia]. by destruct y as [|[|[|y]]].
  - destruct x as [|[|[|[|x]]]]; done || lia.
  - destruct y as [|[|y]]; [|lia|]; by destruct x as [|[|[|[|x]]]].
  - destruct y as [|[|y]]; [|lia|]; by destruct x as [|[|[|[|x]]]].
  - exists 1. split; [lia|done].
  - exists 1. split; [lia|done].
  - exists 1. split; [lia|done].
  - exists 1. split; [lia|done].
Qed.

Lemma C5_witness :
  let s := initial [["in"; "a.jpg"]] (Some ["out"]) in
  let o := out_path ["out"] ["in"; "a.jpg"] in
  occupies two_opaque (1, 1, 3, 2) ∧
  (∃ written s',
     V2.process_image env_two_opaque ["in"; "a.jpg"] ["out"] s = (inr o, s') ∧
     files (world s') !! o = Some (Png written) ∧
     dimensions written = (2, 1)) ∧
  (∃ s',
     V1.process_image env_two_opaque ["in"; "a.jpg"] ["out"] s = (inr o, s') ∧
     files (world s') !! o = Some (Png two_opaque) ∧
     dimensions two_opaque = (4, 3)).
Proof.
  intros s o. split; [exact two_opaque_occupies|].
  destruct (C5_crop_policy env_two_opaque ["in"; "a.jpg"] ["out"] s
              two_opaque two_opaque eq_refl eq_refl eq_refl
              (fun _ => eq_refl))
    as [(written & s2 & Hrun2 & Hfile2 & Hbox & _) (s1 & Hrun1 & Hfile1)].
  split.
  - exists written, s2. split; [exact Hrun2|]. split; [exact Hfile2|].
    exact (proj1 (Hbox 1 1 3 2 two_opaque_occupies)).
  - exists s1. split; [exact Hrun1|]. split; [exact Hfile1|reflexivity].
Defined.

(** ** C6: the output file *)

Lemma rfind_absent c s : Str.contains c s = false → Str.rfind c s = (-1)%Z.
Proof.
  induction s as [|a s IH]; simpl; [done|].
  intros [Ha Hs]%orb_false_iff. by rewrite (IH Hs), Ha.
Qed.

Lemma append_nil_l s : String.append "" s = s.
Proof. reflexivity. Qed.

Lemma append_cons a s1 s2 :
  String.append (String a s1) s2 = String a (String.append s1 s2).
Proof. reflexivity. Qed.

(** The last dot of [base.ext], for an extension without a dot, is the one
    between them. *)
Lemma rfind_dot_base_ext base ext :
  Str.contains "." ext = false →
  Str.rfind "." (String.append base (String "." ext))
  = Z.of_nat (String.length base).
Proof.
  intros Hext. induction base as [|a base IH].
  - rewrite append_nil_l. simpl. by rewrite (rfind_absent _ _ Hext).
  - rewrite append_cons. cbn [Str.rfind String.length]. rewrite IH.
    destruct (Z.leb_spec 0 (Z.of_nat (String.length base))); lia.
Qed.

Lemma length_append s1 s2 :
  String.length (String.append s1 s2) = String.length s1 + String.length s2.
Proof.
  induction s1 as [|a s1 IH]; [done|].
  rewrite append_cons. simpl. by rewrite IH.
Qed.

Lemma take_append s1 s2 : Str.take (String.length s1) (String.append s1 s2) = s1.
Proof.
  induction s1 as [|a s1 IH]; [by destruct s2|].
  rewrite append_cons. simpl. by rewrite IH.
Qed.

Lemma drop_append s1 s2 : Str.drop (String.length s1) (String.append s1 s2) = s2.
Proof.
  induction s1 as [|a s1 IH]; [by destruct s2|].
  rewrite append_cons. simpl. done.
Qed.

(** [stem] and [suffix] of a name of the form [base.ext]. *)
Lemma stem_suffix_base_ext p base ext :
  name p = base +:+ "." +:+ ext →
  base ≠ "" → ext ≠ "" → Str.contains "." ext = false →
  stem p = base ∧ suffix p = "." +:+ ext.
Proof.
  intros Hname Hbase Hext Hdot. unfold stem, suffix. rewrite Hname.
  change (base +:+ "." +:+ ext) with (String.append base (String "." ext)).
  rewrite (rfind_dot_base_ext _ _ Hdot), length_append, Nat2Z.id.
  rewrite take_append, drop_append.
  assert (0 < String.length base) by (destruct base; [done|cbn; lia]).
  assert (0 < String.length ext) by (destruct ext; [done|cbn; lia]).
  cbn [String.length].
  destruct (Z.ltb_spec 0 (Z.of_nat (String.length base))); [|lia].
  destruct (Z.ltb_spec (Z.of_nat (String.length base))
              (Z.of_nat (String.length base + S (String.length ext)) - 1));
    [done|lia].
Qed.

(** A name without a dot has no extension: it is its own stem. *)
Lemma stem_without_dot p : Str.contains "." (name p) = false → stem p = name p.
Proof.
  intros Hdot. unfold stem. by rewrite (rfind_absent _ _ Hdot).
Qed.

Lemma name_joinpath d nm : name (joinpath d nm) = nm.
Proof. unfold name, joinpath. apply last_last. Qed.

Lemma take_drop_string n s : String.append (Str.take n s) (Str.drop n s) = s.
Proof.
  revert s. induction n as [|n IH]; intros [|a s]; simpl; try done.
  rewrite append_cons. by rewrite IH.
Qed.

Lemma rfind_upper c s : (Str.rfind c s < Z.of_nat (String.length s))%Z.
Proof.
  induction s as [|a s IH]; simpl; [lia|].
  destruct (Z.leb_spec 0 (Str.rfind c s)); [lia|].
  destruct (Ascii.eqb a c); lia.
Qed.

(** At the index [rfind] returns there is the character, and none after. *)
Lemma rfind_found c s :
  (0 ≤ Str.rfind c s)%Z →
  ∃ rest, Str.drop (Z.to_nat (Str.rfind c s)) s = String c rest ∧
          Str.contains c rest = false.
Proof.
  induction s as [|a s IH]; simpl; [lia|].
  destruct (Z.leb_spec 0 (Str.rfind c s)) as [Hr|Hr].
  - intros _. destruct (IH Hr) as (rest & Hd & Hc). exists rest.
    replace (Z.to_nat (Str.rfind c s + 1)) with (S (Z.to_nat (Str.rfind c s)))
      by lia.
    done.
  - destruct (Ascii.eqb_spec a c) as [->|Hne]; [|lia].
    intros _. exists s. split; [done|].
    clear IH. induction s as [|b s IH]; simpl in *; [done|].
    destruct (Z.leb_spec 0 (Str.rfind c s)); [lia|].
    destruct (Ascii.eqb_spec b c); [lia|]. simpl. apply IH. lia.
Qed.

Lemma length_take_le n s : String.length (Str.take n s) ≤ n.
Proof.
  revert s. induction n as [|n IH]; intros [|a s]; simpl; try lia.
  specialize (IH s). lia.
Qed.

Lemma take_nonempty n s : 0 < n → s ≠ "" → Str.take n s ≠ "".
Proof. destruct n, s; simpl; intros; done || lia. Qed.

(** The suffix test of the source, on the name alone. *)
Lemma suffix_shape p :
  suffix p ≠ "" →
  ∃ base ext, name p = base +:+ "." +:+ ext ∧ base ≠ "" ∧ ext ≠ "" ∧
              Str.contains "." ext = false ∧ suffix p = "." +:+ ext.
Proof.
  unfold suffix. set (nm := name p). set (i := Str.rfind "." nm).
  destruct (Z.ltb_spec 0 i) as [Hi|]; [|done]. simpl.
  destruct (Z.ltb_spec i (Z.of_nat (String.length nm) - 1)) as [Hlen|]; [|done].
  intros _. destruct (rfind_found "." nm) as (rest & Hd & Hc); [fold i; lia|].
  fold i in Hd. exists (Str.take (Z.to_nat i) nm), rest.
  assert (Hnm : nm = Str.take (Z.to_nat i) nm +:+ "." +:+ rest).
  { rewrite <- (take_drop_string (Z.to_nat i) nm) at 1. by rewrite Hd. }
  split; [done|]. split.
  { apply take_nonempty; [lia|]. intros E. rewrite E in Hlen. simpl in Hlen. lia. }
  split; [|by rewrite Hd].
  intros ->. rewrite Hnm in Hlen.
  change (Str.take (Z.to_nat i) nm +:+ "." +:+ "")
    with (String.append (Str.take (Z.to_nat i) nm) (String "." "")) in Hlen.
  rewrite length_append in Hlen. simpl in Hlen.
  pose proof (length_take_le (Z.to_nat i) nm). lia.
Qed.

(** A name in which [suffix] finds no extension is its own stem. *)
Lemma stem_without_suffix p : suffix p = "" → stem p = name p.
Proof.
  unfold suffix, stem. set (nm := name p). set (i := Str.rfind "." nm).
  destruct ((0 <? i)%Z && (i <? Z.of_nat (String.length nm) - 1)%Z) eqn:Ht;
    [|done].
  intros Hd. exfalso.
  apply andb_true_iff in Ht as [Hi%Z.ltb_lt Hlen%Z.ltb_lt].
  destruct (rfind_found "." nm) as (rest & Hr & _); [fold i; lia|].
  fold i in Hr. by rewrite Hr in Hd.
Qed.

(** C6: the output path of an item is [out_dir / stem_nobg.png], where the
    stem is the file name without its extension: [base] for a name
    [base.ext], whatever the letters of [ext], and the whole name when
    pathlib finds no extension in it (no dot, a leading dot only, a
    trailing dot).  A call of [process_image] that returns has decoded the
    item, passed it to [remove] and saved the result -- cropped, in V2 --
    as a PNG at that path, which it returns; the file replaces whatever was
    at that path, the other files are untouched, and no widget is called,
    so nothing warns of the overwrite.  The call does return, with that
    file saved, when the directory can be made, the item decodes, the
    transform returns and the save works. *)
Theorem C6_output_name env in_path d s :
  let o := out_path d in_path in
  (∀ base ext, name in_path = base +:+ "." +:+ ext →
     base ≠ "" → ext ≠ "" → Str.contains "." ext = false →
     o = joinpath d (base +:+ "_nobg.png")) ∧
  (suffix in_path = "" → o = joinpath d (name in_path +:+ "_nobg.png")) ∧
  (suffix in_path ≠ "" →
     ∃ base ext, name in_path = base +:+ "." +:+ ext ∧ base ≠ "" ∧
                 ext ≠ "" ∧ Str.contains "." ext = false) ∧
  name o = stem in_path +:+ "_nobg.png" ∧
  (∀ out s', V1.process_image env in_path d s = (inr out, s') →
     out = o ∧ gui s' = gui s ∧
     ∃ im res, image_open env (after_mkdir (world s) d) in_path = inr im ∧
               remove env im = inr res ∧
               files (world s') = <[o := Png res]> (files (world s)) ∧
               files (world s') !! o = Some (Png res)) ∧
  (∀ out s', V2.process_image env in_path d s = (inr out, s') →
     out = o ∧ gui s' = gui s ∧
     ∃ im res, image_open env (after_mkdir (world s) d) in_path = inr im ∧
               remove env im = inr res ∧
               files (world s') = <[o := Png (cropped res)]> (files (world s)) ∧
               files (world s') !! o = Some (Png (cropped res))) ∧
  (∀ res, item_succeeds env (world s) d in_path res →
     V1.process_image env in_path d s = (inr o, saved_state s in_path d res) ∧
     V2.process_image env in_path d s
       = (inr o, saved_state s in_path d (cropped res))).
Proof.
  intros o. subst o.
  split.
  { intros base ext Hname Hbase Hext Hdot. unfold out_path.
    by destruct (stem_suffix_base_ext _ _ _ Hname Hbase Hext Hdot) as [-> _]. }
  split.
  { intros Hs. unfold out_path. by rewrite (stem_without_suffix _ Hs). }
  split.
  { intros Hs. destruct (suffix_shape _ Hs) as (base & ext & ? & ? & ? & ? & _).
    by exists base, ext. }
  split; [apply name_joinpath|].
  split; [|split]; [intros out s' Hrun..|].
  - pose proof (V1_process_image_cases env in_path d s) as Hc.
    unfold process_image_cases in Hc. rewrite Hrun in Hc.
    destruct (mkdir_error env (world s) d); [done|].
    destruct (image_open env _ in_path) as [|im] eqn:Hopen; [done|].
    destruct (remove env im) as [|res] eqn:Hrem; [done|].
    destruct (save_error env _ _ _); [done|]. injection Hc as -> ->.
    split; [done|]. split; [done|]. exists im, res.
    split; [done|]. split; [done|]. split; [done|]. apply lookup_insert_eq.
  - pose proof (V2_process_image_cases env in_path d s) as Hc.
    unfold process_image_cases in Hc. rewrite Hrun in Hc.
    destruct (mkdir_error env (world s) d); [done|].
    destruct (image_open env _ in_path) as [|im] eqn:Hopen; [done|].
    destruct (remove env im) as [|res] eqn:Hrem; [done|].
    destruct (save_error env _ _ _); [done|]. injection Hc as -> ->.
    split; [done|]. split; [done|]. exists im, res.
    split; [done|]. split; [done|]. split; [done|]. apply lookup_insert_eq.
  - intros res (Hmk & (im & Hopen & Hrem) & Hsave). split.
    + pose proof (V1_process_image_cases env in_path d s) as Hc.
      unfold process_image_cases in Hc.
      by rewrite Hmk, Hopen, Hrem, Hsave in Hc.
    + pose proof (V2_process_image_cases env in_path d s) as Hc.
      unfold process_image_cases in Hc.
      by rewrite Hmk, Hopen, Hrem, Hsave in Hc.
Qed.

Lemma C6_witness :
  let s := mkState [] (Some ["out"]) []
             (mkWorld {[ ["out"; "photo_nobg.png"] := Raw "old" ]} ∅) [] [] in
  let o := ["out"; "photo_nobg.png"] in
  files (world s) !! o = Some (Raw "old") ∧
  out_path ["out"] ["home"; "pics"; "photo.JPEG"] = o ∧
  (∃ s', V1.process_image env_two_opaque ["home"; "pics"; "photo.JPEG"]
           ["out"] s = (inr o, s') ∧
         gui s' = gui s ∧ files (world s') !! o = Some (Png two_opaque)) ∧
  (∃ s', V2.process_image env_two_opaque ["home"; "pics"; "photo.JPEG"]
           ["out"] s = (inr o, s') ∧
         gui s' = gui s ∧
         files (world s') !! o = Some (Png (cropped two_opaque))) ∧
  out_path ["out"] ["home"; "scan"] = ["out"; "scan_nobg.png"] ∧
  out_path ["out"] ["home"; ".hidden"] = ["out"; ".hidden_nobg.png"] ∧
  out_path ["out"] ["home"; "a."] = ["out"; "a._nobg.png"] ∧
  out_path ["out"] ["home"; "archive.tar.gz"] = ["out"; "archive.tar_nobg.png"].
Proof.
  intros s o.
  destruct (C6_output_name env_two_opaque ["home"; "pics"; "photo.JPEG"]
              ["out"] s) as (Ho & _ & _ & _ & H1 & H2 & Hrun).
  split; [reflexivity|].
  split; [exact (Ho "photo" "JPEG" eq_refl ltac:(discriminate)
                    ltac:(discriminate) eq_refl)|].
  destruct (Hrun two_opaque) as [Hs1 Hs2].
  { split; [reflexivity|]. split; [|reflexivity]. by exists two_opaque. }
  split; [|split].
  - destruct (H1 _ _ Hs1) as (_ & Hg & im & res & [= <-] & [= <-] & _ & Hl).
    eexists. split; [exact Hs1|]. split; [exact Hg|exact Hl].
  - destruct (H2 _ _ Hs2) as (_ & Hg & im & res & [= <-] & [= <-] & _ & Hl).
    eexists. split; [exact Hs2|]. split; [exact Hg|exact Hl].
  - repeat split; reflexivity.
Defined.

(** ** C10: two inputs with the same stem *)

Lemma remove_dups_shorter {A} `{EqDecision A} (l : list A) :
  length (remove_dups l) ≤ length l ∧
  (¬ NoDup l → length (remove_dups l) < length l).
Proof.
  induction l as [|x l [IH1 IH2]]; simpl.
  - split; [lia|]. intros H. destruct H. constructor.
  - destruct (decide_rel elem_of x l) as [Hin|Hin]; simpl.
    + split; [lia|]. intros _. lia.
    + split; [lia|]. intros Hnd.
      enough (length (remove_dups l) < length l) by lia.
      apply IH2. intros Hl. apply Hnd. by constructor.
Qed.

Lemma size_written_lt (l : list Path) :
  ¬ NoDup l → size (list_to_set l : gset Path) < length l.
Proof.
  intros Hnd.
  replace (list_to_set l : gset Path) with (list_to_set (remove_dups l) : gset Path).
  - rewrite size_list_to_set by apply NoDup_remove_dups.
    by apply remove_dups_shorter.
  - apply set_eq. intros x. by rewrite !elem_of_list_to_set, elem_of_remove_dups.
Qed.

Lemma successes_saved (rs : list Result) :
  successes (map line_of rs) = length (omap saved_path rs).
Proof.
  unfold successes. induction rs as [|[f [e|o]] rs IH]; simpl; [done|done|].
  by rewrite IH.
Qed.

Lemma lookup_map_middle {A B} (f : A -> B) (l1 : list A) x l2 :
  map f (l1 ++ x :: l2) !! length l1 = Some (f x).
Proof.
  change (map f (l1 ++ x :: l2)) with (f <$> (l1 ++ x :: l2)).
  by rewrite list_lookup_fmap, list_lookup_middle.
Qed.

Lemma dom_replay ws : ∀ m,
  dom (replay ws m) = files_written ws ∪ dom m.
Proof.
  unfold files_written, replay.
  induction ws as [|[o im] ws IH]; intros m; simpl.
  - by rewrite union_empty_l_L.
  - rewrite IH, dom_insert_L.
    by rewrite union_assoc_L, (union_comm_L _ {[o]}).
Qed.

Lemma collision_of_results d (rs : list Result) (ws : list (Path * Image))
    l1 p l2 q l3 :
  map fst rs = l1 ++ p :: l2 ++ q :: l3 →
  out_path d p = out_path d q →
  map fst ws = omap saved_path rs →
  Forall (fun r => ∀ out, r.2 = inr out → out = out_path d r.1) rs →
  is_ok <$> map line_of rs !! length l1 = Some true →
  is_ok <$> map line_of rs !! (length l1 + S (length l2)) = Some true →
  (∃ ws1 im1 ws2 im2 ws3,
     ws = ws1 ++ (out_path d p, im1) :: ws2 ++ (out_path d p, im2) :: ws3) ∧
  size (files_written ws) < successes (map line_of rs).
Proof.
  intros Hm Hsame Hws Hout Hi Hj.
  destruct (results_split _ _ _ _ Hm) as (rs1 & rp & rs' & -> & H1 & Hm').
  destruct (results_split _ _ _ _ Hm') as (rs2 & rq & rs3 & -> & H2 & H3).
  assert (Hl1 : length l1 = length rs1) by (by rewrite <- H1, length_map).
  assert (Hl2 : length l2 = length rs2) by (by rewrite <- H2, length_map).
  rewrite Hl1, lookup_map_middle in Hi.
  replace (length l1 + S (length l2))
    with (length (rs1 ++ (p, rp) :: rs2)) in Hj
    by (rewrite length_app; simpl; lia).
  replace (rs1 ++ (p, rp) :: rs2 ++ (q, rq) :: rs3)
    with ((rs1 ++ (p, rp) :: rs2) ++ (q, rq) :: rs3) in Hj
    by (by rewrite <- app_assoc).
  rewrite lookup_map_middle in Hj.
  apply Forall_app in Hout as [_ Hout].
  apply Forall_cons in Hout as [Hp Hout].
  apply Forall_app in Hout as [_ Hout].
  apply Forall_cons in Hout as [Hq _]. simpl in Hp, Hq.
  destruct rp as [e|op]; [by inversion Hi|].
  destruct rq as [e|oq]; [by inversion Hj|].
  rewrite (Hp op eq_refl), (Hq oq eq_refl), <- Hsame in *. clear Hp Hq Hi Hj.
  assert (Hpaths : map fst ws =
            omap saved_path rs1 ++ out_path d p ::
            omap saved_path rs2 ++ out_path d p :: omap saved_path rs3).
  { rewrite Hws, omap_app. simpl. unfold saved_path at 2. simpl.
    rewrite omap_app. simpl. by unfold saved_path at 3. }
  split.
  - apply map_eq_app in Hpaths as (ws1 & ws' & -> & _ & Hpaths).
    apply map_eq_cons in Hpaths as ([o1 im1] & ws'' & -> & Ho1 & Hpaths).
    apply map_eq_app in Hpaths as (ws2 & ws' & -> & _ & Hpaths).
    apply map_eq_cons in Hpaths as ([o2 im2] & ws3 & -> & Ho2 & _).
    simpl in Ho1, Ho2. subst o1 o2. by exists ws1, im1, ws2, im2, ws3.
  - rewrite successes_saved, <- Hws, length_map.
    rewrite <- (length_map fst ws). apply size_written_lt.
    rewrite Hpaths. intros Hnd. apply NoDup_app in Hnd as (_ & _ & Hnd).
    apply NoDup_cons in Hnd as [Hnd _]. apply Hnd.
    apply elem_of_app. right. left.
Qed.

(** C10: two items [p] and [q] of a work list with the same stem have the
    same output path; and in a run in which both are processed with
    success, the save for the later one goes to the path the earlier one
    was saved at, so that the run writes fewer files than it reports
    successes. *)
Theorem C10_same_stem_collides env s d l1 p l2 q l3 :
  input_paths s = l1 ++ p :: l2 ++ q :: l3 → output_dir s = Some d →
  stem p = stem q →
  out_path d p = out_path d q ∧
  collision (V1.process env) s d p (length l1) (length l1 + S (length l2)) ∧
  collision (V2.start_process env) s d p
            (length l1) (length l1 + S (length l2)).
Proof.
  intros Hl Hd Hstem.
  assert (Hsame : out_path d p = out_path d q)
    by (unfold out_path; by rewrite Hstem).
  assert (Hne : input_paths s ≠ []) by (rewrite Hl; by destruct l1).
  split; [done|]. split.
  - destruct (V1_process_run (fun _ => True) (fun _ _ => True) env d s)
      as (rs & ws & s' & Hrun & Hm & _ & _ & _ & _ & Hg & _ & Hw & Hp & Hout & Hf);
      auto.
    exists s', (V1_run_events rs), ws.
    do 4 (split; [done|]). split; [rewrite Hf; apply dom_replay|].
    rewrite result_lines_V1_run. rewrite Hl in Hm.
    by apply (collision_of_results d rs ws l1 p l2 q l3).
  - destruct (V2_start_process_run (fun _ => True) (fun _ _ => True) env d s)
      as (rs & ws & s' & Hrun & Hm & _ & _ & _ & _ & Hg & _ & Hw & Hp & Hout & Hf);
      auto.
    exists s', (V2_run_events rs), ws.
    do 4 (split; [done|]). split; [rewrite Hf; apply dom_replay|].
    rewrite result_lines_V2_run. rewrite Hl in Hm.
    by apply (collision_of_results d rs ws l1 p l2 q l3).
Qed.

Lemma C10_witness :
  let s := initial [["in"; "a.jpg"]; ["in"; "a.png"]] (Some ["out"]) in
  stem ["in"; "a.jpg"] = stem ["in"; "a.png"] ∧
  out_path ["out"] ["in"; "a.jpg"] = out_path ["out"] ["in"; "a.png"] ∧
  (∃ s', V1.process env_ok s = (inr tt, s') ∧
         successes (result_lines (gui s')) = 2 ∧
         size (files_written (writes s')) < successes (result_lines (gui s'))) ∧
  (∃ s', V2.start_process env_ok s = (inr tt, s') ∧
         successes (result_lines (gui s')) = 2 ∧
         size (files_written (writes s')) < successes (result_lines (gui s'))).
Proof.
  intros s.
  assert (Hstem : stem ["in"; "a.jpg"] = stem ["in"; "a.png"]) by reflexivity.
  destruct (C10_same_stem_collides env_ok s ["out"] [] ["in"; "a.jpg"] []
              ["in"; "a.png"] [] eq_refl eq_refl Hstem)
    as (Hsame & (s1 & tr1 & ws1 & Hrun1 & Hg1 & Hw1 & _ & _ & Hc1)
              & (s2 & tr2 & ws2 & Hrun2 & Hg2 & Hw2 & _ & _ & Hc2)).
  split; [exact Hstem|]. split; [exact Hsame|].
  simpl in Hg1, Hw1, Hg2, Hw2. rewrite <- Hg1, <- Hw1 in Hc1.
  rewrite <- Hg2, <- Hw2 in Hc2.
  assert (E1 : s1 = (V1.process env_ok s).2) by (by rewrite Hrun1).
  assert (E2 : s2 = (V2.start_process env_ok s).2) by (by rewrite Hrun2).
  split.
  - exists s1. split; [exact Hrun1|]. split; [by rewrite E1|].
    apply Hc1; by rewrite E1.
  - exists s2. split; [exact Hrun2|]. split; [by rewrite E2|].
    apply Hc2; by rewrite E2.
Defined.

(** * Further properties *)

(** ** Which names are eligible *)

Lemma lower_ascii_dot c : Str.lower_ascii c = "."%char ↔ c = "."%char.
Proof.
  split; [|by intros ->].
  destruct c as [[] [] [] [] [] [] [] []]; vm_compute; congruence.
Qed.

Lemma contains_dot_lower s : Str.contains "." (Str.lower s) = Str.contains "." s.
Proof.
  induction s as [|a s IH]; simpl; [done|]. rewrite IH. f_equal.
  destruct (Ascii.eqb_spec (Str.lower_ascii a) "."%char) as [H|H];
    destruct (Ascii.eqb_spec a "."%char) as [H'|H']; try done.
  - destruct H'. by apply lower_ascii_dot.
  - destruct H. by apply lower_ascii_dot.
Qed.

Lemma lower_dot_ext ext : Str.lower ("." +:+ ext) = "." +:+ Str.lower ext.
Proof. reflexivity. Qed.

Lemma supported_exts_dotted e :
  "." +:+ e ∈ SUPPORTED_EXTS ↔ e ∈ image_extensions.
Proof.
  change ("." +:+ e) with (String "." e).
  rewrite !list_elem_of_In. unfold SUPPORTED_EXTS, image_extensions. simpl.
  split.
  - intros [H|[H|[H|[H|[H|[H|[H|[]]]]]]]]; injection H as <-; auto 10.
  - intros [<-|[<-|[<-|[<-|[<-|[<-|[<-|[]]]]]]]]; auto 10.
Qed.

(** X1: a path is eligible ([p.suffix.lower() in SUPPORTED_EXTS]) exactly
    when its file name is a non-empty base, a dot, and one of the seven
    extensions written in any mix of upper and lower case.  So [.png] alone,
    [photo.png.] and [photo] are not eligible, [archive.tar.PNG] is. *)
Theorem X1_supported_iff_name_shape p :
  supported p = true ↔
  ∃ base ext, name p = base +:+ "." +:+ ext ∧ base ≠ "" ∧
              Str.lower ext ∈ image_extensions.
Proof.
  unfold supported. rewrite bool_decide_eq_true. split.
  - intros Hin.
    destruct (suffix_shape p) as (base & ext & Hn & Hb & _ & _ & Hs).
    { intros E. rewrite E in Hin. vm_compute in Hin.
      repeat (apply elem_of_cons in Hin as [Hin|Hin]; [discriminate|]).
      by apply elem_of_nil in Hin. }
    exists base, ext. split; [done|]. split; [done|].
    rewrite Hs, lower_dot_ext in Hin. by apply supported_exts_dotted.
  - intros (base & ext & Hn & Hb & Hext).
    assert (Hdot : Str.contains "." ext = false).
    { rewrite <- contains_dot_lower. unfold image_extensions in Hext.
      repeat (apply elem_of_cons in Hext as [->|Hext]; [done|]).
      by apply elem_of_nil in Hext. }
    assert (Hne : ext ≠ "").
    { intros ->. unfold image_extensions in Hext.
      repeat (apply elem_of_cons in Hext as [Hext|Hext]; [discriminate|]).
      by apply elem_of_nil in Hext. }
    destruct (stem_suffix_base_ext p base ext Hn Hb Hne Hdot) as [_ ->].
    rewrite lower_dot_ext. by apply supported_exts_dotted.
Qed.

Lemma supported_examples :
  supported ["home"; "archive.tar.PNG"] = true ∧
  supported ["home"; ".png"] = false ∧
  supported ["home"; "photo.png."] = false ∧
  supported ["home"; "photo"] = false ∧
  supported ["home"; "photo.JpEg"] = true.
Proof. vm_compute. auto. Qed.

(** ** What [rglob] and the collectors find *)

































(** ** Runs: refusal, order of the widget calls, files left alone *)

Lemma app_self_nil {A} (l k : list A) : l = l ++ k → k = [].
Proof.
  intros H. apply (app_inv_head l). by rewrite app_nil_r.
Qed.

(** X5: [process] (V1) and [start_process] (V2) refuse to run -- one
    warning, no item attempted, nothing logged or written -- exactly when
    the work list is empty or no output directory is set.  The work list is
    checked first: with an empty list the warning asks for files, whatever
    the output directory. *)
Theorem X5_run_refused_iff env s :
  ((∃ text, refused (V1.process env) s text) ↔
     input_paths s = [] ∨ output_dir s = None) ∧
  ((∃ text, refused (V2.start_process env) s text) ↔
     input_paths s = [] ∨ output_dir s = None) ∧
  (input_paths s = [] →
     refused (V1.process env) s "Selecione arquivos ou uma pasta primeiro." ∧
     refused (V2.start_process env) s
       "Selecione arquivos ou uma pasta primeiro.") ∧
  (input_paths s ≠ [] → output_dir s = None →
     refused (V1.process env) s "Selecione a pasta de saída." ∧
     refused (V2.start_process env) s "Selecione a pasta de saída.").
Proof.
  assert (Hempty : input_paths s = [] →
    refused (V1.process env) s "Selecione arquivos ou uma pasta primeiro." ∧
    refused (V2.start_process env) s
      "Selecione arquivos ou uma pasta primeiro.").
  { intros He. unfold refused, V1.process, V2.start_process. run_monad.
    by rewrite He. }
  assert (Hnone : input_paths s ≠ [] → output_dir s = None →
    refused (V1.process env) s "Selecione a pasta de saída." ∧
    refused (V2.start_process env) s "Selecione a pasta de saída.").
  { intros Hne Hd. unfold refused, V1.process, V2.start_process. run_monad.
    rewrite Hd. by destruct (input_paths s). }
  assert (Hcases : input_paths s = [] ∨ output_dir s = None →
    (∃ text, refused (V1.process env) s text) ∧
    (∃ text, refused (V2.start_process env) s text)).
  { intros Hor. destruct (input_paths s) as [|f l] eqn:Hl.
    - destruct (Hempty eq_refl); eauto.
    - destruct Hor as [|Hd]; [done|]. destruct (Hnone ltac:(done) Hd); eauto. }
  split; [|split; [|split; [done|done]]].
  - split; [|by intros H; apply Hcases in H as [? _]].
    intros [text Hr]. destruct (input_paths s) as [|f l] eqn:Hl; [by left|].
    destruct (output_dir s) as [d|] eqn:Hd; [|by right]. exfalso.
    destruct (V1_process_run (fun _ => True) (fun _ _ => True) env d s)
      as (rs & ws & s' & Hrun & Hm & _ & _ & _ & _ & _ & Ha & _);
      [by rewrite Hl|done|done|done|].
    unfold refused in Hr. rewrite Hrun in Hr. injection Hr as ->.
    simpl in Ha. apply app_self_nil in Ha. rewrite Hm, Hl in Ha. done.
  - split; [|by intros H; apply Hcases in H as [_ ?]].
    intros [text Hr]. destruct (input_paths s) as [|f l] eqn:Hl; [by left|].
    destruct (output_dir s) as [d|] eqn:Hd; [|by right]. exfalso.
    destruct (V2_start_process_run (fun _ => True) (fun _ _ => True) env d s)
      as (rs & ws & s' & Hrun & Hm & _ & _ & _ & _ & _ & Ha & _);
      [by rewrite Hl|done|done|done|].
    unfold refused in Hr. rewrite Hrun in Hr. injection Hr as ->.
    simpl in Ha. apply app_self_nil in Ha. rewrite Hm, Hl in Ha. done.
Qed.

Lemma X5_witness :
  refused (V1.process env_ok) (initial [] None)
    "Selecione arquivos ou uma pasta primeiro." ∧
  refused (V2.start_process env_ok) (initial [["a.png"]] None)
    "Selecione a pasta de saída." ∧
  ¬ (∃ text, refused (V1.process env_ok)
               (initial [["a.png"]] (Some ["out"])) text).
Proof.
  destruct (X5_run_refused_iff env_ok (initial [] None))
    as (_ & _ & Hempty & _).
  destruct (X5_run_refused_iff env_ok (initial [["a.png"]] None))
    as (_ & _ & _ & Hnone).
  destruct (X5_run_refused_iff env_ok (initial [["a.png"]] (Some ["out"])))
    as (Hiff & _).
  split; [exact (proj1 (Hempty eq_refl))|].
  split; [apply Hnone; [discriminate|reflexivity]|].
  intros H. apply Hiff in H as [H|H]; discriminate H.
Defined.

(** X6: the widget calls of a run come in a fixed order.  V1: the progress
    bar is reset, the start line is logged, then for each item in turn its
    result line is logged and the bar is set to the number of items done,
    and the end line closes the run.  V2: the count line, progress 0, then
    for each item the line that names it, its result line and its progress
    value, then the end line and progress 1. *)
Theorem X6_order_of_widget_calls env s d :
  input_paths s ≠ [] → output_dir s = Some d →
  (∃ s' rs, V1.process env s = (inr tt, s') ∧
     map fst rs = input_paths s ∧
     gui s' = gui s ++
       [ProgressConfigure (Some (length rs)) 0;
        AppendLog (LogStart (length rs))] ++
       run_events (fun idx r =>
         [AppendLog (line_of r); ProgressConfigure None idx]) 1 rs ++
       [AppendLog LogDone]) ∧
  (∃ s' rs, V2.start_process env s = (inr tt, s') ∧
     map fst rs = input_paths s ∧
     gui s' = gui s ++
       [AppendLog (LogTotal (length rs)); SetProgress 0] ++
       run_events (fun idx r =>
         [AppendLog (LogProcessing (name r.1)); AppendLog (line_of r);
          SetProgress (fraction (length rs) idx)]) 1 rs ++
       [AppendLog LogDone; SetProgress 1]).
Proof.
  intros Hne Hd. split.
  - destruct (V1_process_run (fun _ => True) (fun _ _ => True) env d s)
      as (rs & ws & s' & Hrun & Hm & _ & _ & _ & _ & Hg & _); auto.
    by exists s', rs.
  - destruct (V2_start_process_run (fun _ => True) (fun _ _ => True) env d s)
      as (rs & ws & s' & Hrun & Hm & _ & _ & _ & _ & Hg & _); auto.
    by exists s', rs.
Qed.

Lemma X6_witness :
  let s := initial [["in"; "a.png"]; ["in"; "b.png"]] (Some ["out"]) in
  (∃ s', V1.process env_b_fails s = (inr tt, s') ∧
     gui s' =
       [ProgressConfigure (Some 2) 0; AppendLog (LogStart 2);
        AppendLog (LogOk "a.png" "a_nobg.png"); ProgressConfigure None 1;
        AppendLog (LogErr "b.png" model_error); ProgressConfigure None 2;
        AppendLog LogDone]) ∧
  (∃ s', V2.start_process env_b_fails s = (inr tt, s') ∧
     gui s' =
       [AppendLog (LogTotal 2); SetProgress 0;
        AppendLog (LogProcessing "a.png");
        AppendLog (LogOk "a.png" "a_nobg.png"); SetProgress (fraction 2 1);
        AppendLog (LogProcessing "b.png");
        AppendLog (LogErr "b.png" model_error); SetProgress (fraction 2 2);
        AppendLog LogDone; SetProgress 1]).
Proof.
  intros s.
  destruct (X6_order_of_widget_calls env_b_fails s ["out"])
    as [(s1 & rs1 & Hrun1 & _ & _) (s2 & rs2 & Hrun2 & _ & _)];
    [discriminate|reflexivity|].
  split.
  - exists s1. split; [exact Hrun1|].
    assert (E : s1 = (V1.process env_b_fails s).2) by (by rewrite Hrun1).
    by rewrite E.
  - exists s2. split; [exact Hrun2|].
    assert (E : s2 = (V2.start_process env_b_fails s).2) by (by rewrite Hrun2).
    by rewrite E.
Defined.

Lemma replay_lookup_other ws : ∀ m path,
  ¬ In path (map fst ws) → replay ws m !! path = m !! path.
Proof.
  unfold replay. induction ws as [|[o im] ws IH]; intros m path Hn; [done|].
  simpl in *. rewrite IH by tauto. apply lookup_insert_ne. tauto.
Qed.

Lemma replay_lookup_some ws : ∀ m path,
  is_Some (m !! path) → is_Some (replay ws m !! path).
Proof.
  unfold replay. induction ws as [|[o im] ws IH]; intros m path Hs; [done|].
  simpl. apply IH. destruct (decide (o = path)) as [->|Hne].
  - rewrite lookup_insert_eq. eauto.
  - by rewrite lookup_insert_ne.
Qed.

Lemma ends_with_refl suf : ends_with suf suf = true.
Proof. destruct suf; simpl; [done|]. by rewrite Ascii.eqb_refl, String.eqb_refl. Qed.

Lemma ends_with_append a suf : ends_with suf (String.append a suf) = true.
Proof.
  induction a as [|c a IH]; [apply ends_with_refl|].
  rewrite append_cons. simpl. rewrite IH. apply orb_true_r.
Qed.

Lemma written_paths_are_outputs d (rs : list Result) path :
  Forall (fun r => ∀ out, r.2 = inr out → out = out_path d r.1) rs →
  In path (omap saved_path rs) →
  ∃ f, In f (map fst rs) ∧ path = out_path d f.
Proof.
  induction 1 as [|[f r] rs Hr _ IH]; simpl; [done|].
  unfold saved_path at 1. simpl. destruct r as [e|out]; simpl.
  - intros Hin. destruct (IH Hin) as (f' & ? & ?). eauto.
  - intros [<-|Hin].
    + exists f. split; [by left|]. by apply Hr.
    + destruct (IH Hin) as (f' & ? & ?). eauto.
Qed.

Lemma run_steps_only_outputs d evs rs ws s s' :
  map fst rs = input_paths s →
  run_steps d evs rs ws s s' →
  (∀ path, In path (map fst ws) →
     ∃ f, In f (input_paths s) ∧
          path = joinpath d (stem f +:+ "_nobg.png")) ∧
  (∀ path, (∀ f, In f (input_paths s) → path ≠ out_path d f) →
     files (world s') !! path = files (world s) !! path) ∧
  (∀ path, ends_with "_nobg.png" (name path) = false →
     files (world s') !! path = files (world s) !! path) ∧
  (∀ path, is_Some (files (world s) !! path) →
     is_Some (files (world s') !! path)).
Proof.
  intros Hm (_ & _ & _ & _ & _ & Hp & Hout & Hf).
  assert (Hw : ∀ path, In path (map fst ws) →
            ∃ f, In f (input_paths s) ∧ path = out_path d f).
  { intros path Hin. rewrite Hp in Hin. rewrite <- Hm.
    by apply written_paths_are_outputs. }
  split; [exact Hw|]. rewrite Hf. split; [|split].
  - intros path Hother. apply replay_lookup_other.
    intros (f & Hin & ->)%Hw. by apply (Hother f).
  - intros path Hend. apply replay_lookup_other.
    intros (f & Hin & ->)%Hw. unfold out_path in Hend.
    rewrite name_joinpath in Hend.
    change (stem f +:+ "_nobg.png")
      with (String.append (stem f) "_nobg.png") in Hend.
    by rewrite ends_with_append in Hend.
  - intros path. apply replay_lookup_some.
Qed.

(** X7: a run writes nothing but the output files of its items, each
    directly in the output directory under the name [stem_nobg.png]; every
    other file is left as it was -- in particular every file whose name
    does not end in [_nobg.png], so the originals stay intact even when the
    output directory is the one they are in -- and no file is removed. *)
Theorem X7_run_writes_only_outputs env s d :
  input_paths s ≠ [] → output_dir s = Some d →
  only_outputs_written (V1.process env) s d ∧
  only_outputs_written (V2.start_process env) s d.
Proof.
  intros Hne Hd. split.
  - destruct (V1_process_run (fun _ => True) (fun _ _ => True) env d s)
      as (rs & ws & s' & Hrun & Hm & _ & _ & Hsteps); auto.
    exists s', ws. split; [done|].
    split; [by destruct Hsteps as (_ & _ & _ & _ & ? & _)|].
    by apply (run_steps_only_outputs d (V1_run_events rs) rs).
  - destruct (V2_start_process_run (fun _ => True) (fun _ _ => True) env d s)
      as (rs & ws & s' & Hrun & Hm & _ & _ & Hsteps); auto.
    exists s', ws. split; [done|].
    split; [by destruct Hsteps as (_ & _ & _ & _ & ? & _)|].
    by apply (run_steps_only_outputs d (V2_run_events rs) rs).
Qed.

Lemma X7_witness :
  let s := mkState [["pics"; "a.png"]; ["pics"; "b.jpg"]] (Some ["pics"]) []
             (mkWorld {[ ["pics"; "a.png"] := Raw "original a";
                         ["pics"; "b.jpg"] := Raw "original b" ]} ∅) [] [] in
  ∃ s', V1.process env_ok s = (inr tt, s') ∧
        files (world s') !! ["pics"; "a.png"] = Some (Raw "original a") ∧
        files (world s') !! ["pics"; "b.jpg"] = Some (Raw "original b") ∧
        map fst (writes s') = [["pics"; "a_nobg.png"]; ["pics"; "b_nobg.png"]].
Proof.
  intros s.
  destruct (X7_run_writes_only_outputs env_ok s ["pics"])
    as [(s1 & ws & Hrun & Hw & _ & _ & Hkeep & _) _];
    [discriminate|reflexivity|].
  exists s1. split; [exact Hrun|].
  split; [exact (eq_trans (Hkeep ["pics"; "a.png"] eq_refl) eq_refl)|].
  split; [exact (eq_trans (Hkeep ["pics"; "b.jpg"] eq_refl) eq_refl)|].
  assert (E : s1 = (V1.process env_ok s).2) by (by rewrite Hrun).
  by rewrite E.
Defined.

(** ** A failing item and the output directory *)

Lemma with_parents_prefix (d p : Path) :
  p ≠ [] → p `prefix_of` d → In p (with_parents d).
Proof.
  intros Hne [k ->]. unfold with_parents. apply in_map_iff.
  exists (length p). split; [by rewrite take_app_length|].
  apply in_seq. rewrite length_app. destruct p; [done|]. simpl. lia.
Qed.

(** X8: the output directory is made before the item is opened.  So when
    the directory can be made but decoding the item fails, [process_image]
    raises the decoding error and writes no file, yet the output directory
    and the directories above it exist afterwards; directories that were
    there stay. *)
Theorem X8_failed_item_leaves_directory env in_path d s e :
  mkdir_error env (world s) d = None →
  image_open env (after_mkdir (world s) d) in_path = inl e →
  ∀ res, res = V1.process_image env in_path d s ∨
         res = V2.process_image env in_path d s →
    res.1 = inl e ∧
    files (world res.2) = files (world s) ∧ writes res.2 = writes s ∧
    (∀ p, p ≠ [] → p `prefix_of` d → p ∈ dirs (world res.2)) ∧
    (∀ p, p ∈ dirs (world s) → p ∈ dirs (world res.2)).
Proof.
  intros Hmk Hopen res Hres.
  assert (Hc : res = (inl e, failed_state s in_path (after_mkdir (world s) d))).
  { destruct Hres as [-> | ->].
    - pose proof (V1_process_image_cases env in_path d s) as Hc.
      unfold process_image_cases in Hc. by rewrite Hmk, Hopen in Hc.
    - pose proof (V2_process_image_cases env in_path d s) as Hc.
      unfold process_image_cases in Hc. by rewrite Hmk, Hopen in Hc. }
  rewrite Hc. simpl. do 3 (split; [done|]). split.
  - intros p Hne Hp. apply elem_of_union_l, elem_of_list_to_set, list_elem_of_In.
    by apply with_parents_prefix.
  - intros p Hp. by apply elem_of_union_r.
Qed.

Lemma X8_witness :
  let res := V1.process_image env_corrupt ["in"; "a.png"] ["home"; "out"]
               (initial [] None) in
  res.1 = inl (Exception "cannot identify image file") ∧
  ["home"; "out"] ∈ dirs (world res.2) ∧ ["home"] ∈ dirs (world res.2) ∧
  files (world res.2) = ∅.
Proof.
  intros res.
  destruct (X8_failed_item_leaves_directory env_corrupt ["in"; "a.png"]
              ["home"; "out"] (initial [] None)
              (Exception "cannot identify image file") eq_refl eq_refl
              res (or_introl eq_refl)) as (Hr & Hf & _ & Hd & _).
  split; [exact Hr|].
  split; [apply Hd; [discriminate|by exists []]|].
  split; [apply Hd; [discriminate|by exists ["out"]]|exact Hf].
Defined.

(** ** What cropping keeps *)

Lemma find_seq_first_inv (f : nat -> bool) n k :
  List.find f (seq 0 n) = Some k →
  k < n ∧ f k = true ∧ ∀ j, j < k → f j = false.
Proof.
  induction n as [|n IH]; [done|].
  rewrite seq_S, find_app_split. simpl.
  destruct (List.find f (seq 0 n)) as [k'|] eqn:Hfind.
  - intros [= <-]. destruct (IH eq_refl) as (? & ? & ?). auto with lia.
  - destruct (f n) eqn:Hn; [|done]. intros [= <-].
    split; [lia|]. split; [done|]. intros j Hj.
    apply (find_none _ _ Hfind). apply in_seq. lia.
Qed.

Lemma find_seq_last_inv (f : nat -> bool) n k :
  List.find f (rev (seq 0 n)) = Some k →
  k < n ∧ f k = true ∧ ∀ j, k < j → j < n → f j = false.
Proof.
  induction n as [|n IH]; [done|].
  rewrite seq_S, rev_app_distr. simpl.
  destruct (f n) eqn:Hn.
  - intros [= <-]. split; [lia|]. split; [done|]. intros; lia.
  - intros Hfind. destruct (IH Hfind) as (Hk & Hfk & Hafter).
    split; [lia|]. split; [done|]. intros j Hj Hjn.
    destruct (decide (j = n)) as [->|]; [done|]. apply Hafter; lia.
Qed.

(** [getbbox] returns a box only if the pixels occupy it, and [None] only
    for an image without a visible pixel. *)
Lemma getbbox_sound im :
  match getbbox im with
  | Some box => occupies im box
  | None => fully_transparent im
  end.
Proof.
  unfold getbbox.
  destruct (List.find (column_has_data im) (seq 0 (width im))) as [l|] eqn:Hl.
  2:{ intros x y Hx Hy. apply not_true_is_false. intros Hop.
      assert (column_has_data im x = true)
        by (apply column_has_data_iff; eauto).
      rewrite (find_none _ _ Hl x) in H; [done|]. apply in_seq. lia. }
  destruct (List.find (row_has_data im) (seq 0 (height im))) as [u|] eqn:Hu.
  2:{ intros x y Hx Hy. apply not_true_is_false. intros Hop.
      assert (row_has_data im y = true) by (apply row_has_data_iff; eauto).
      rewrite (find_none _ _ Hu y) in H; [done|]. apply in_seq. lia. }
  destruct (List.find (column_has_data im) (rev (seq 0 (width im))))
    as [r|] eqn:Hr.
  2:{ intros x y Hx Hy. apply not_true_is_false. intros Hop.
      assert (column_has_data im x = true)
        by (apply column_has_data_iff; eauto).
      rewrite (find_none _ _ Hr x) in H; [done|].
      apply in_rev. rewrite rev_involutive. apply in_seq. lia. }
  destruct (List.find (row_has_data im) (rev (seq 0 (height im))))
    as [b|] eqn:Hb.
  2:{ intros x y Hx Hy. apply not_true_is_false. intros Hop.
      assert (row_has_data im y = true) by (apply row_has_data_iff; eauto).
      rewrite (find_none _ _ Hb y) in H; [done|].
      apply in_rev. rewrite rev_involutive. apply in_seq. lia. }
  apply find_seq_first_inv in Hl as (Hlw & Hlc & Hlmin).
  apply find_seq_first_inv in Hu as (Huh & Hur & Humin).
  apply find_seq_last_inv in Hr as (Hrw & Hrc & Hrmax).
  apply find_seq_last_inv in Hb as (Hbh & Hbr & Hbmax).
  assert (Hcol : ∀ x y, x < width im → y < height im →
            opaque_at im x y = true → l ≤ x ∧ x ≤ r).
  { intros x y Hx Hy Hop.
    assert (Hc : column_has_data im x = true)
      by (apply column_has_data_iff; eauto).
    split.
    - destruct (decide (l ≤ x)); [done|]. rewrite Hlmin in Hc; [done|lia].
    - destruct (decide (x ≤ r)); [done|]. rewrite Hrmax in Hc; [done|lia|done]. }
  assert (Hrow : ∀ x y, x < width im → y < height im →
            opaque_at im x y = true → u ≤ y ∧ y ≤ b).
  { intros x y Hx Hy Hop.
    assert (Hc : row_has_data im y = true) by (apply row_has_data_iff; eauto).
    split.
    - destruct (decide (u ≤ y)); [done|]. rewrite Humin in Hc; [done|lia].
    - destruct (decide (y ≤ b)); [done|]. rewrite Hbmax in Hc; [done|lia|done]. }
  apply column_has_data_iff in Hlc as (yl & Hyl & Hopl).
  apply column_has_data_iff in Hrc as (yr & Hyr & Hopr).
  apply row_has_data_iff in Hur as (xu & Hxu & Hopu).
  apply row_has_data_iff in Hbr as (xb & Hxb & Hopb).
  destruct (Hcol l yl Hlw Hyl Hopl). destruct (Hrow xu u Hxu Huh Hopu).
  unfold occupies. replace (S r - 1) with r by lia.
  replace (S b - 1) with b by lia.
  split; [lia|]. split; [lia|]. split; [lia|]. split; [lia|].
  split.
  { intros x y Hx Hy Hop.
    destruct (Hcol x y Hx Hy Hop), (Hrow x y Hx Hy Hop). lia. }
  split; [by exists yl|]. split; [by exists yr|].
  split; [by exists xu|]. by exists xb.
Qed.

Lemma cropped_keeps_visible_pixels out :
  ∃ l u, keeps_visible_pixels out (cropped out) l u.
Proof.
  unfold cropped. pose proof (getbbox_sound out) as Hs.
  destruct (getbbox out) as [[[[l u] r] b]|].
  - destruct Hs as (Hlr & Hr & Hub & Hb & Hin & _).
    exists l, u. unfold keeps_visible_pixels. simpl.
    split; [lia|]. split; [lia|]. intros x y Hx Hy Hop.
    destruct (Hin x y Hx Hy Hop) as (? & ? & ? & ?).
    repeat split; try lia. f_equal; lia.
  - exists 0, 0. unfold keeps_visible_pixels.
    split; [done|]. split; [done|]. intros x y Hx Hy Hop.
    repeat split; try lia. f_equal; lia.
Qed.

(** X9: what V2 saves for an item is never larger than the image the
    transform returned and shows every one of its non-transparent pixels,
    moved by the corner of the crop: cropping to the bounding box removes
    fully transparent pixels only. *)
Theorem X9_crop_keeps_visible_pixels env in_path d s out_p s' :
  V2.process_image env in_path d s = (inr out_p, s') →
  ∃ im out written l u,
    image_open env (after_mkdir (world s) d) in_path = inr im ∧
    remove env im = inr out ∧
    files (world s') !! out_p = Some (Png written) ∧
    keeps_visible_pixels out written l u.
Proof.
  intros Hrun. pose proof (V2_process_image_cases env in_path d s) as Hc.
  unfold process_image_cases in Hc. rewrite Hrun in Hc.
  destruct (mkdir_error env (world s) d); [done|].
  destruct (image_open env _ in_path) as [|im] eqn:Hopen; [done|].
  destruct (remove env im) as [|out] eqn:Hrem; [done|].
  destruct (save_error env _ _ _); [done|]. injection Hc as -> ->.
  destruct (cropped_keeps_visible_pixels out) as (l & u & Hk).
  exists im, out, (cropped out), l, u. do 2 (split; [done|]).
  split; [apply lookup_insert_eq|done].
Qed.

Lemma X9_witness :
  let s := initial [["in"; "a.jpg"]] (Some ["out"]) in
  ∃ s' written l u,
    V2.process_image env_two_opaque ["in"; "a.jpg"] ["out"] s
    = (inr ["out"; "a_nobg.png"], s') ∧
    files (world s') !! ["out"; "a_nobg.png"] = Some (Png written) ∧
    keeps_visible_pixels two_opaque written l u.
Proof.
  intros s.
  destruct (X9_crop_keeps_visible_pixels env_two_opaque ["in"; "a.jpg"]
              ["out"] s ["out"; "a_nobg.png"]
              (V2.process_image env_two_opaque ["in"; "a.jpg"] ["out"] s).2
              eq_refl)
    as (im & out & written & l & u & Hopen & Hrem & Hfile & Hk).
  injection Hopen as <-. injection Hrem as <-.
  exists (V2.process_image env_two_opaque ["in"; "a.jpg"] ["out"] s).2,
    written, l, u.
  split; [reflexivity|]. split; [exact Hfile|exact Hk].
Defined.

(** ** Sessions of the plain program *)

(** One callback: it returns, attempts only items of the work list, writes
    only their output files in the output directory, and the work list and
    the output directory change only by what the action selects. *)
Lemma callback_step a s :
  ∃ s' ats ws,
    try_except (callback a) (fun _ => ret tt) s = (inr tt, s') ∧
    attempts s' = attempts s ++ ats ∧ writes s' = writes s ++ ws ∧
    (∀ f, In f ats → In f (input_paths s)) ∧
    (∀ path, In path (map fst ws) →
       ∃ d f, output_dir s = Some d ∧ In f ats ∧ path = out_path d f) ∧
    (∀ path, ends_with "_nobg.png" (name path) = false →
       files (world s') !! path = files (world s) !! path) ∧
    (∀ path, is_Some (files (world s) !! path) →
       is_Some (files (world s') !! path)) ∧
    (∀ f, In f (input_paths s') → In f (input_paths s) ∨ In f (selection a)) ∧
    (∀ d, output_dir s' = Some d →
       output_dir s = Some d ∨ a = ClickOutput (Some d)).
Proof.
  assert (Hquiet : ∀ s', attempts s' = attempts s → writes s' = writes s →
    world s' = world s →
    (∀ f, In f (input_paths s') → In f (input_paths s) ∨ In f (selection a)) →
    (∀ d, output_dir s' = Some d →
       output_dir s = Some d ∨ a = ClickOutput (Some d)) →
    try_except (callback a) (fun _ => ret tt) s = (inr tt, s') →
    ∃ s' ats ws,
      try_except (callback a) (fun _ => ret tt) s = (inr tt, s') ∧
      attempts s' = attempts s ++ ats ∧ writes s' = writes s ++ ws ∧
      (∀ f, In f ats → In f (input_paths s)) ∧
      (∀ path, In path (map fst ws) →
         ∃ d f, output_dir s = Some d ∧ In f ats ∧ path = out_path d f) ∧
      (∀ path, ends_with "_nobg.png" (name path) = false →
         files (world s') !! path = files (world s) !! path) ∧
      (∀ path, is_Some (files (world s) !! path) →
         is_Some (files (world s') !! path)) ∧
      (∀ f, In f (input_paths s') →
         In f (input_paths s) ∨ In f (selection a)) ∧
      (∀ d, output_dir s' = Some d →
         output_dir s = Some d ∨ a = ClickOutput (Some d))).
  { intros s' Ha Hw Hwd Hin Hout Hrun. exists s', [], [].
    rewrite !app_nil_r, Hwd. repeat split; try done. }
  destruct a as [picked|t folder|folder|t paths|env].
  1-4: match goal with
       | |- context [try_except (callback ?a) ?h ?s0] =>
           apply (Hquiet (try_except (callback a) h s0).2)
       end;
    unfold callback, selection, folder_images, choose_files, choose_folder,
      choose_output, on_drop;
    repeat match goal with
           | |- context [match ?x with _ => _ end] => destruct x
           end;
    run_monad; auto; intros ? [= ->]; by right.
  - clear Hquiet. unfold try_except. simpl. destruct (input_paths s) as [|f0 l0] eqn:Hl.
    { exists (add_event
                (ShowWarning "Selecione arquivos ou uma pasta primeiro.") s),
        [], [].
      unfold V1.process. run_monad. rewrite Hl, !app_nil_r.
      repeat split; try done; simpl; auto. }
    destruct (output_dir s) as [d|] eqn:Hd.
    2:{ exists (add_event (ShowWarning "Selecione a pasta de saída.") s),
          [], [].
        unfold V1.process. run_monad. rewrite Hl, Hd, !app_nil_r.
        repeat split; try done; simpl; auto. }
    destruct (V1_process_run (fun _ => True) (fun _ _ => True) env d s)
      as (rs & ws & s' & Hrun & Hm & _ & _ & Hsteps); auto.
    { by rewrite Hl. }
    pose proof (run_steps_only_outputs d (V1_run_events rs) rs ws s s' Hm Hsteps)
      as (Hw & _ & Hkeep & Hsome).
    destruct Hsteps as (Hi & Ho & _ & Ha & Hws & Hp & Hout & _).
    exists s', (map fst rs), ws. split; [by rewrite Hrun|]. split; [done|].
    split; [done|]. split; [by rewrite Hm, Hl|]. split.
    { intros path Hin. rewrite Hp in Hin.
      destruct (written_paths_are_outputs d rs path Hout Hin) as (f & ? & ?).
      by exists d, f. }
    split; [done|]. split; [done|]. split.
    + intros f. rewrite Hi, Hl. auto.
    + intros d'. rewrite Ho, Hd. auto.
Qed.

Lemma mainloop_steps acts : ∀ s,
  ∃ s' ats ws,
    mainloop acts s = (inr tt, s') ∧
    attempts s' = attempts s ++ ats ∧ writes s' = writes s ++ ws ∧
    (∀ f, In f ats →
       In f (input_paths s) ∨ ∃ a, In a acts ∧ In f (selection a)) ∧
    (∀ path, In path (map fst ws) →
       ∃ d f, (output_dir s = Some d ∨ In (ClickOutput (Some d)) acts) ∧
              In f ats ∧ path = out_path d f) ∧
    (∀ path, ends_with "_nobg.png" (name path) = false →
       files (world s') !! path = files (world s) !! path) ∧
    (∀ path, is_Some (files (world s) !! path) →
       is_Some (files (world s') !! path)).
Proof.
  induction acts as [|a acts IH]; intros s.
  { exists s, [], []. rewrite !app_nil_r. by repeat split. }
  destruct (callback_step a s)
    as (s1 & ats1 & ws1 & Hrun1 & Ha1 & Hw1 & Hsel1 & Hout1 & Hkeep1 & Hsome1
        & Hin1 & Hd1).
  destruct (IH s1)
    as (s2 & ats2 & ws2 & Hrun2 & Ha2 & Hw2 & Hsel2 & Hout2 & Hkeep2 & Hsome2).
  exists s2, (ats1 ++ ats2), (ws1 ++ ws2).
  split. { simpl. unfold bind. by rewrite Hrun1. }
  split. { by rewrite Ha2, Ha1, app_assoc. }
  split. { by rewrite Hw2, Hw1, app_assoc. }
  split.
  { intros f [Hf|Hf]%in_app_or; [left; auto|].
    destruct (Hsel2 f Hf) as [Hf1|(a' & ? & ?)].
    - destruct (Hin1 f Hf1); [by left|]. right. exists a. split; [by left|done].
    - right. exists a'. split; [by right|done]. }
  split.
  { intros path. rewrite map_app. intros [Hp|Hp]%in_app_or.
    - destruct (Hout1 path Hp) as (d & f & ? & ? & ?). exists d, f.
      split; [by left|]. split; [apply in_or_app; by left|done].
    - destruct (Hout2 path Hp) as (d & f & Hdir & ? & ?). exists d, f.
      split; [|split; [apply in_or_app; by right|done]].
      destruct Hdir as [Hdir|Hdir]; [|right; by right].
      destruct (Hd1 d Hdir) as [?| ->]; [by left|right; by left]. }
  split.
  { intros path Hend. by rewrite Hkeep2, Hkeep1. }
  intros path Hs. by apply Hsome2, Hsome1.
Qed.

(** X10: in every session of the plain program -- any sequence of
    selections, drops, output choices and runs, whatever the dialogs return
    and the libraries do -- only selected items are attempted, every file
    written is [stem_nobg.png] of an attempted item in a directory the user
    chose as output, every file whose name does not end in [_nobg.png]
    keeps its content, and no file is removed. *)
Theorem X10_session_writes_only_outputs w acts :
  ∃ s', mainloop acts (App_init w) = (inr tt, s') ∧
    (∀ f, In f (attempts s') → ∃ a, In a acts ∧ In f (selection a)) ∧
    (∀ path, In path (map fst (writes s')) →
       ∃ d f, In (ClickOutput (Some d)) acts ∧ In f (attempts s') ∧
              path = out_path d f) ∧
    (∀ path, ends_with "_nobg.png" (name path) = false →
       files (world s') !! path = files w !! path) ∧
    (∀ path, is_Some (files w !! path) → is_Some (files (world s') !! path)).
Proof.
  destruct (mainloop_steps acts (App_init w))
    as (s' & ats & ws & Hrun & Ha & Hw & Hsel & Hout & Hkeep & Hsome).
  simpl in Ha, Hw, Hsel, Hout, Hkeep, Hsome. subst ats ws.
  exists s'. split; [done|].
  split. { intros f Hf. by destruct (Hsel f Hf). }
  split; [|done].
  intros path Hp. destruct (Hout path Hp) as (d & f & [?|?] & ? & ?); [done|].
  by exists d, f.
Qed.

(** A session: the output is first set to the folder of the originals, a
    run without a work list is refused, then two files are picked and
    processed. *)
Lemma session_example :
  let w := mkWorld {[ ["pics"; "a.png"] := Raw "original a";
                      ["pics"; "b.jpg"] := Raw "original b" ]} ∅ in
  let acts := [ClickOutput (Some ["pics"]); ClickStart env_ok;
               ClickFiles [["pics"; "a.png"]; ["pics"; "b.jpg"]];
               ClickStart env_ok] in
  let s' := (mainloop acts (App_init w)).2 in
  map fst (writes s') = [["pics"; "a_nobg.png"]; ["pics"; "b_nobg.png"]] ∧
  files (world s') !! ["pics"; "a.png"] = Some (Raw "original a") ∧
  attempts s' = [["pics"; "a.png"]; ["pics"; "b.jpg"]].
Proof. by vm_compute. Qed.

(** X11: choosing a folder in which nothing is eligible replaces the work
    list by the empty list -- a work list loaded before is lost, the log
    says 0 files found -- so that the next run is refused with the warning
    that asks for files, in both programs.  Dropping the same folder, by
    contrast, leaves the application as it was. *)
Theorem X11_folder_without_images_clears_work_list env t d s :
  iter_images_in_dir t d = inr [] → is_file t d = inr false →
  (∃ s1, choose_folder t (Some d) s = (inr tt, s1) ∧
     s1 = add_event (AppendLog (LogFound 0)) (set_input_paths [] s) ∧
     refused (V1.process env) s1 "Selecione arquivos ou uma pasta primeiro." ∧
     refused (V2.start_process env) s1
       "Selecione arquivos ou uma pasta primeiro.") ∧
  on_drop t [d] s = (inr tt, s).
Proof.
  intros Hnone Hfile. split.
  - eexists. split; [|split; [reflexivity|]].
    + unfold choose_folder. rewrite Hnone. by run_monad.
    + by unfold refused, V1.process, V2.start_process; run_monad.
  - unfold on_drop. simpl. unfold on_drop_step. rewrite Hfile. simpl.
    destruct (is_dir t d) as [e|[]] eqn:Hd; [|by rewrite Hnone|done].
    unfold is_dir, is_file in *. destruct d as [|c d]; [done|].
    by destruct (stat_from t (c :: d)) as [e'|[[]|]].
Qed.

Lemma X11_witness :
  let t := [Dir "d" [File "notes.txt"]] in
  let s := initial [["pics"; "a.png"]] (Some ["out"]) in
  ∃ s1, choose_folder t (Some ["d"]) s = (inr tt, s1) ∧
        input_paths s1 = [] ∧
        refused (V1.process env_ok) s1
          "Selecione arquivos ou uma pasta primeiro." ∧
        input_paths (on_drop t [["d"]] s).2 = [["pics"; "a.png"]].
Proof.
  intros t s.
  destruct (X11_folder_without_images_clears_work_list env_ok t ["d"] s
              eq_refl eq_refl) as [(s1 & Hrun & Hs1 & Hv1 & _) Hdrop].
  exists s1. split; [exact Hrun|]. split; [by rewrite Hs1|].
  split; [exact Hv1|].
  exact (f_equal (fun r => input_paths r.2) Hdrop).
Defined.

(** ** The progress display of Version 0002 *)

Lemma py_round_mono (x y : Qc) : (x <= y)%Qc → (py_round x <= py_round y)%Z.
Proof.
  unfold Qcle. intros Hxy.
  pose proof (Qfloor_resp_le _ _ Hxy) as Hn.
  pose proof (Qfloor_le x) as Hx. pose proof (Qlt_floor x) as Hx'.
  pose proof (Qfloor_le y) as Hy. pose proof (Qlt_floor y) as Hy'.
  rewrite inject_Z_plus in Hx', Hy'. change (inject_Z 1) with 1%Q in *.
  unfold py_round.
  destruct (decide (Qfloor x = Qfloor y)) as [E|NE].
  - rewrite E in *.
    destruct (x - inject_Z (Qfloor y) ?= 1 # 2)%Q eqn:Hc1;
      destruct (y - inject_Z (Qfloor y) ?= 1 # 2)%Q eqn:Hc2;
      first [apply Qeq_alt in Hc1|apply Qlt_alt in Hc1|apply Qgt_alt in Hc1];
      first [apply Qeq_alt in Hc2|apply Qlt_alt in Hc2|apply Qgt_alt in Hc2];
      try destruct (Z.even (Qfloor y)); try lia; exfalso; lra.
  - assert (Qfloor x + 1 <= Qfloor y)%Z by lia.
    destruct (x - inject_Z (Qfloor x) ?= 1 # 2)%Q;
      destruct (y - inject_Z (Qfloor y) ?= 1 # 2)%Q;
      repeat match goal with |- context [Z.even ?n] => destruct (Z.even n) end; lia.
Qed.

Lemma py_round_Z (n : Z) (x : Qc) : (x == inject_Z n)%Q → py_round x = n.
Proof.
  intros E. unfold py_round. cbv zeta. rewrite (Qfloor_comp _ _ E), Qfloor_Z.
  assert (H0 : (x - inject_Z n < 1 # 2)%Q) by lra.
  pose proof (proj1 (Qlt_alt _ _) H0) as H.
  by rewrite H.
Qed.

(** Powers of two. *)
Lemma two_power_pos z : (0 < 2 ^ z)%Q.
Proof. by apply Qpower_0_lt. Qed.

Lemma two_power_plus a b : (2 ^ (a + b) == 2 ^ a * 2 ^ b)%Q.
Proof. by apply Qpower_plus. Qed.

Lemma two_power_Z a : (0 ≤ a)%Z → (inject_Z (2 ^ a) == 2 ^ a)%Q.
Proof. intros H. by rewrite Zpower_Qpower. Qed.

Lemma two_power_le a b : (a ≤ b)%Z → (2 ^ a <= 2 ^ b)%Q.
Proof. intros H. by apply Qpower_le_compat_l. Qed.

(** [exponent] is the binary exponent. *)
Lemma exponent_spec q :
  (0 < q)%Q → (2 ^ exponent q <= q)%Q ∧ (q < 2 ^ (exponent q + 1))%Q.
Proof.
  intros Hq. destruct q as [n d].
  assert (Hn : (0 < n)%Z).
  { unfold Qlt in Hq. simpl in Hq. lia. }
  unfold exponent. cbn [Qnum Qden].
  set (a := Z.log2 n). set (b := Z.log2 (Z.pos d)).
  destruct (Z.log2_spec n Hn) as [Ha1 Ha2]. fold a in Ha1, Ha2.
  destruct (Z.log2_spec (Z.pos d) eq_refl) as [Hb1 Hb2]. fold b in Hb1, Hb2.
  assert (Ha0 : (0 ≤ a)%Z) by apply Z.log2_nonneg.
  assert (Hb0 : (0 ≤ b)%Z) by apply Z.log2_nonneg.
  assert (Hd : (0 < inject_Z (Z.pos d))%Q) by done.
  assert (E : (n # d == inject_Z n / inject_Z (Z.pos d))%Q) by apply Qmake_Qdiv.
  assert (Ha1' : (2 ^ a <= inject_Z n)%Q).
  { rewrite <- two_power_Z by done. by rewrite <- Zle_Qle. }
  assert (Ha2' : (inject_Z n < 2 ^ (a + 1))%Q).
  { rewrite <- two_power_Z by lia. rewrite <- Zlt_Qlt.
    by rewrite <- Z.add_1_r in Ha2. }
  assert (Hb1' : (2 ^ b <= inject_Z (Z.pos d))%Q).
  { rewrite <- two_power_Z by done. by rewrite <- Zle_Qle. }
  assert (Hb2' : (inject_Z (Z.pos d) < 2 ^ (b + 1))%Q).
  { rewrite <- two_power_Z by lia. rewrite <- Zlt_Qlt.
    by rewrite <- Z.add_1_r in Hb2. }
  destruct (Qlt_le_dec (n # d) (2 ^ (a - b))) as [Hlt|Hge].
  - split; [|by replace (a - b - 1 + 1)%Z with (a - b)%Z by lia].
    rewrite E. apply Qle_shift_div_l; [done|].
    apply Qle_trans with (2 ^ (a - b - 1) * 2 ^ (b + 1))%Q.
    + apply Qmult_le_l; [apply two_power_pos|by apply Qlt_le_weak].
    + rewrite <- two_power_plus.
      by replace (a - b - 1 + (b + 1))%Z with a by lia.
  - split; [done|].
    rewrite E. apply Qlt_shift_div_r; [done|].
    apply Qlt_le_trans with (2 ^ (a + 1))%Q; [done|].
    replace (a + 1)%Z with ((a - b + 1) + b)%Z by lia.
    rewrite two_power_plus.
    apply Qmult_le_l; [apply two_power_pos|done].
Qed.

Lemma exponent_mono x y :
  (0 < x)%Q → (x <= y)%Q → (exponent x ≤ exponent y)%Z.
Proof.
  intros Hx Hxy.
  destruct (exponent_spec x Hx) as [Hx1 _].
  destruct (exponent_spec y) as [_ Hy2]; [lra|].
  assert (H : (2 ^ exponent x < 2 ^ (exponent y + 1))%Q) by lra.
  apply Qpower_lt_compat_l_inv in H; [lia|done].
Qed.

Lemma Q2Qc_le a b : (a <= b)%Q → (Q2Qc a <= Q2Qc b)%Qc.
Proof. intros H. unfold Qcle. simpl. by rewrite !Qred_correct. Qed.

(** The significand has 53 bits. *)
Lemma significand_bounds q :
  (0 < q)%Q →
  let e := (exponent q - 52)%Z in
  (2 ^ 52 ≤ py_round (Q2Qc (q / 2 ^ e)) ≤ 2 ^ 53)%Z.
Proof.
  intros Hq e. destruct (exponent_spec q Hq) as [H1 H2].
  assert (E1 : (2 ^ exponent q == 2 ^ 52 * 2 ^ e)%Q).
  { rewrite <- two_power_plus. by replace (52 + e)%Z with (exponent q) by lia. }
  assert (E2 : (2 ^ (exponent q + 1) == 2 ^ 53 * 2 ^ e)%Q).
  { rewrite <- two_power_plus.
    by replace (53 + e)%Z with (exponent q + 1)%Z by lia. }
  pose proof (two_power_pos e) as He.
  split.
  - apply Z.le_trans with (py_round (Q2Qc (inject_Z (2 ^ 52)))).
    { rewrite (py_round_Z (2 ^ 52)); [done|simpl; apply Qred_correct]. }
    apply py_round_mono, Q2Qc_le, Qle_shift_div_l; [done|].
    rewrite two_power_Z by done. by rewrite <- E1.
  - apply Z.le_trans with (py_round (Q2Qc (inject_Z (2 ^ 53)))).
    2:{ rewrite (py_round_Z (2 ^ 53)); [done|simpl; apply Qred_correct]. }
    apply py_round_mono, Q2Qc_le, Qle_shift_div_r; [done|].
    rewrite two_power_Z by done. rewrite <- E2. by apply Qlt_le_weak.
Qed.

Lemma nearest_double_bounds q :
  (0 < q)%Q →
  (2 ^ exponent q <= nearest_double q)%Q ∧
  (nearest_double q <= 2 ^ (exponent q + 1))%Q.
Proof.
  intros Hq. pose proof (significand_bounds q Hq) as [H1 H2].
  unfold nearest_double.
  set (e := (exponent q - 52)%Z) in *.
  set (m := py_round (Q2Qc (q / 2 ^ e))) in *.
  pose proof (two_power_pos e) as He.
  split.
  - replace (exponent q) with (52 + e)%Z by lia. rewrite two_power_plus.
    apply Qmult_le_compat_r; [|by apply Qlt_le_weak].
    rewrite <- two_power_Z by done. by rewrite <- Zle_Qle.
  - replace (exponent q + 1)%Z with (53 + e)%Z by lia. rewrite two_power_plus.
    apply Qmult_le_compat_r; [|by apply Qlt_le_weak].
    rewrite <- two_power_Z by done. by rewrite <- Zle_Qle.
Qed.

(** Rounding to the nearest double keeps the order: within a binade by
    the order of the significands, across binades by the power of two
    between them. *)
Lemma nearest_double_mono x y :
  (0 < x)%Q → (x <= y)%Q → (nearest_double x <= nearest_double y)%Q.
Proof.
  intros Hx Hxy. assert (Hy : (0 < y)%Q) by lra.
  pose proof (exponent_mono x y Hx Hxy) as He.
  destruct (decide (exponent x = exponent y)) as [E|NE].
  - unfold nearest_double. rewrite E.
    pose proof (two_power_pos (exponent y - 52)) as Hp.
    apply Qmult_le_compat_r; [|by apply Qlt_le_weak].
    rewrite <- Zle_Qle. apply py_round_mono, Q2Qc_le.
    apply Qmult_le_compat_r; [done|].
    apply Qlt_le_weak, Qinv_lt_0_compat, Hp.
  - destruct (nearest_double_bounds x Hx) as [_ H1].
    destruct (nearest_double_bounds y Hy) as [H2 _].
    apply Qle_trans with (2 ^ (exponent x + 1))%Q; [done|].
    apply Qle_trans with (2 ^ exponent y)%Q; [|done].
    apply two_power_le. lia.
Qed.

Lemma nearest_double_pos x : (0 < x)%Q → (0 < nearest_double x)%Q.
Proof.
  intros Hx. destruct (nearest_double_bounds x Hx) as [H _].
  pose proof (two_power_pos (exponent x)). lra.
Qed.

Lemma binary64_mono x y :
  (0 <= x)%Qc → (x <= y)%Qc → (binary64 x <= binary64 y)%Qc.
Proof.
  intros Hx Hxy. unfold binary64.
  destruct (x ?= 0)%Qc eqn:Cx.
  - destruct (y ?= 0)%Qc eqn:Cy.
    + apply Qcle_refl.
    + apply Qceq_alt in Cx. subst x.
      destruct (Qcle_not_lt _ _ Hxy). by apply Qclt_alt.
    + apply Qcgt_alt in Cy. apply (Q2Qc_le 0).
      apply Qlt_le_weak, nearest_double_pos. exact Cy.
  - apply Qclt_alt in Cx. by destruct (Qcle_not_lt _ _ Hx).
  - apply Qcgt_alt in Cx.
    assert (Hy : (0 < y)%Qc) by (by apply Qclt_le_trans with x).
    apply Qcgt_alt in Hy. rewrite Hy.
    apply Q2Qc_le, nearest_double_mono; [exact Cx|exact Hxy].
Qed.

(** The integers of the display are doubles. *)
Lemma binary64_0 : binary64 0 = 0%Qc.
Proof. reflexivity. Qed.

Lemma binary64_1 : binary64 1 = 1%Qc.
Proof. apply Qc_is_canon. by vm_compute. Qed.

Lemma binary64_100 : binary64 (Q2Qc (inject_Z 100)) = Q2Qc (inject_Z 100).
Proof. apply Qc_is_canon. by vm_compute. Qed.

Lemma binary64_pb_w : binary64 pb_w = pb_w.
Proof. apply Qc_is_canon. by vm_compute. Qed.

Lemma binary64_unit q :
  (0 <= q)%Qc → (q <= 1)%Qc → (0 <= binary64 q)%Qc ∧ (binary64 q <= 1)%Qc.
Proof.
  intros H0 H1. split.
  - rewrite <- binary64_0. apply binary64_mono; [apply Qcle_refl|done].
  - rewrite <- binary64_1. by apply binary64_mono.
Qed.

Lemma clamp_cases q :
  ((q <= 0)%Qc ∧ py_max 0 (py_min 1 q) = 0%Qc) ∨
  ((0 < q)%Qc ∧ (q < 1)%Qc ∧ py_max 0 (py_min 1 q) = q) ∨
  ((1 <= q)%Qc ∧ py_max 0 (py_min 1 q) = 1%Qc).
Proof.
  unfold py_max, py_min.
  destruct (Qclt_le_dec q 1) as [H1|H1].
  - destruct (Qclt_le_dec 0 q) as [H0|H0]; auto.
  - destruct (Qclt_le_dec 0 1) as [H0|H0]; auto. by vm_compute in H0.
Qed.

Lemma pb_w_pos : (0 <= pb_w)%Qc.
Proof. by vm_compute. Qed.

Lemma clamp_unit q :
  (0 <= py_max 0 (py_min 1 q))%Qc ∧ (py_max 0 (py_min 1 q) <= 1)%Qc.
Proof.
  destruct (clamp_cases q) as [[? ->]|[(? & ? & ->)|[? ->]]];
    split; auto using Qclt_le_weak, Qcle_refl; by vm_compute.
Qed.

Lemma clamp_mono q1 q2 :
  (q1 <= q2)%Qc → (py_max 0 (py_min 1 q1) <= py_max 0 (py_min 1 q2))%Qc.
Proof.
  intros H.
  destruct (clamp_cases q1) as [[? ->]|[(? & ? & ->)|[? ->]]];
    destruct (clamp_cases q2) as [[? ->]|[(? & ? & ->)|[? ->]]];
    unfold Qcle, Qclt in *; simpl in *;
    change (Qred 0) with 0%Q in *; change (Qred 1) with 1%Q in *; lra.
Qed.

Lemma float_mul_mono a b c :
  (0 <= a)%Qc → (a <= b)%Qc → (0 <= c)%Qc → (float_mul a c <= float_mul b c)%Qc.
Proof.
  intros Ha Hab Hc. apply binary64_mono.
  - rewrite <- (Qcmult_0_l c). by apply Qcmult_le_compat_r.
  - by apply Qcmult_le_compat_r.
Qed.

Lemma bar_width_clamped q : (0 <= bar_width q)%Qc ∧ (bar_width q <= pb_w)%Qc.
Proof.
  unfold bar_width. destruct (clamp_unit q) as [H0 H1]. split.
  - rewrite <- binary64_0, <- (Qcmult_0_l pb_w).
    apply (float_mul_mono 0); [apply Qcle_refl|done|apply pb_w_pos].
  - rewrite <- binary64_pb_w at 2. rewrite <- (Qcmult_1_l pb_w) at 2.
    apply (float_mul_mono _ 1); [done..|apply pb_w_pos].
Qed.

Lemma bar_width_mono q1 q2 : (q1 <= q2)%Qc → (bar_width q1 <= bar_width q2)%Qc.
Proof.
  intros H. apply float_mul_mono; [apply clamp_unit|by apply clamp_mono|].
  apply pb_w_pos.
Qed.

Lemma percent_mono q1 q2 :
  (0 <= q1)%Qc → (q1 <= q2)%Qc → (percent q1 <= percent q2)%Z.
Proof.
  intros H0 H. apply py_round_mono, float_mul_mono; [done..|by vm_compute].
Qed.

Lemma shown_by_0 : shown_by 0 = (0%Qc, 0%Z).
Proof.
  unfold shown_by, bar_width, percent, float_mul.
  destruct (clamp_cases 0) as [[_ ->]|[(H & _)|[H _]]];
    [|by vm_compute in H..].
  rewrite !Qcmult_0_l, binary64_0. by rewrite (py_round_Z 0).
Qed.

Lemma shown_by_1 : shown_by 1 = (pb_w, 100%Z).
Proof.
  unfold shown_by, bar_width, percent, float_mul.
  destruct (clamp_cases 1) as [[H _]|[(_ & H & _)|[_ ->]]];
    [by vm_compute in H..|].
  rewrite !Qcmult_1_l, binary64_pb_w, binary64_100.
  by rewrite (py_round_Z 100).
Qed.

Lemma shown_by_bounds q :
  (0 <= q)%Qc → (q <= 1)%Qc →
  ((0 <= (shown_by q).1)%Qc ∧ ((shown_by q).1 <= pb_w)%Qc) ∧
  (0 ≤ (shown_by q).2 ≤ 100)%Z.
Proof.
  intros H0 H1. split; [apply bar_width_clamped|]. simpl.
  pose proof (percent_mono 0 q (Qcle_refl 0) H0) as Hlo.
  pose proof (percent_mono q 1 H0 H1) as Hhi.
  assert (E0 : percent 0 = 0%Z) by exact (f_equal snd shown_by_0).
  assert (E1 : percent 1 = 100%Z) by exact (f_equal snd shown_by_1).
  rewrite E0 in Hlo. rewrite E1 in Hhi. lia.
Qed.

Lemma displays_progress_calls tr :
  displays tr = map (fun q => shown_by (binary64 q)) (progress_calls tr).
Proof.
  unfold displays, progress_calls.
  induction tr as [|e tr IH]; [done|].
  destruct e; simpl; first [exact IH|by f_equal].
Qed.

Lemma progress_values_sorted total n : ∀ idx,
  total ≠ 0 → idx + n = S total →
  StronglySorted Qcle (map (fraction total) (seq idx n) ++ [1%Qc]).
Proof.
  induction n as [|n IH]; intros idx Ht Hn; simpl.
  { repeat constructor. }
  constructor; [apply IH; [done|lia]|].
  apply List.Forall_forall. intros q [Hq|[<-|[]]]%in_app_or.
  - apply in_map_iff in Hq as (i & <- & Hi%in_seq).
    apply Qclt_le_weak, fraction_lt; lia.
  - apply fraction_le_1; lia.
Qed.

Lemma StronglySorted_map_mono {A B} (R : A → A → Prop) (S : B → B → Prop)
    (P : A → Prop) (f : A → B) l :
  (∀ x y, P x → R x y → S (f x) (f y)) → Forall P l →
  StronglySorted R l → StronglySorted S (map f l).
Proof.
  intros Hf HP Hl. induction Hl as [|x l Hl IH Hx]; simpl; constructor.
  - apply IH. by apply Forall_cons in HP as [_ ?].
  - apply Forall_cons in HP as [HPx _].
    apply List.Forall_forall. intros y (x' & <- & Hin)%in_map_iff.
    apply Hf; [done|]. by apply (proj1 (List.Forall_forall _ _) Hx).
Qed.

Lemma run_values_unit n :
  n ≠ 0 →
  Forall (fun q => (0 <= q)%Qc ∧ (q <= 1)%Qc)
    (0%Qc :: map (fraction n) (seq 1 n) ++ [1%Qc]).
Proof.
  intros Hn. apply List.Forall_forall. intros q Hq.
  destruct Hq as [<-|Hq]; [by vm_compute|].
  apply in_app_or in Hq as [Hq|[<-|[]]]; [|by vm_compute].
  apply in_map_iff in Hq as (i & <- & Hi%in_seq). split.
  - apply Qclt_le_weak, fraction_pos. lia.
  - apply fraction_le_1; lia.
Qed.

Lemma run_displays n :
  n ≠ 0 →
  let shown := map (fun q => shown_by (binary64 q))
                 (0%Qc :: map (fraction n) (seq 1 n) ++ [1%Qc]) in
  shown =
    (0%Qc, 0%Z) :: map (fun i => shown_by (binary64 (fraction n i))) (seq 1 n) ++
    [(pb_w, 100%Z)] ∧
  Forall (fun x => ((0 <= x.1)%Qc ∧ (x.1 <= pb_w)%Qc) ∧ (0 ≤ x.2 ≤ 100)%Z)
    shown ∧
  StronglySorted display_le shown ∧
  shown_by (binary64 (fraction n n)) = (pb_w, 100%Z).
Proof.
  intros Hn shown. subst shown.
  assert (Hsorted : StronglySorted Qcle
            (0%Qc :: map (fraction n) (seq 1 n) ++ [1%Qc])).
  { constructor; [apply progress_values_sorted; [done|lia]|].
    apply List.Forall_forall. intros q [Hq|[<-|[]]]%in_app_or; [|by vm_compute].
    apply in_map_iff in Hq as (i & <- & Hi%in_seq).
    apply Qclt_le_weak, fraction_pos. lia. }
  pose proof (run_values_unit n Hn) as Hunit.
  split; [|split; [|split]].
  - simpl. rewrite map_app, map_map. simpl.
    by rewrite binary64_0, binary64_1, shown_by_0, shown_by_1.
  - apply List.Forall_forall. intros x (q & <- & Hq)%in_map_iff.
    rewrite List.Forall_forall in Hunit. destruct (Hunit q Hq) as [H0 H1].
    by apply shown_by_bounds; apply binary64_unit.
  - apply (StronglySorted_map_mono Qcle display_le
             (fun q => (0 <= q)%Qc ∧ (q <= 1)%Qc)); [|done..].
    intros x y [H0 _] Hxy.
    pose proof (binary64_mono x y H0 Hxy) as Hb.
    assert (H0' : (0 <= binary64 x)%Qc).
    { rewrite <- binary64_0. apply binary64_mono; [apply Qcle_refl|done]. }
    split; [by apply bar_width_mono|by apply percent_mono].
  - by rewrite fraction_full, binary64_1, shown_by_1.
Qed.

(** X13: the display during a run of Version 0002, for a work list of [N]
    items, the arithmetic done in doubles: empty bar and 0 first, then
    after item [i] what the double [i / N] gives, and the full bar with
    100 last.  The bar stays within its trough, the number between 0 and
    100, and from one call to any later one neither goes back; after the
    last item the display is already complete.  The number is the rounded
    double product, which need not be the rounded exact percentage: after
    item 23 of 40 it is 57, where 57.5 exactly would give 58. *)
Theorem X13_display_of_a_run env s d :
  input_paths s ≠ [] → output_dir s = Some d →
  let N := length (input_paths s) in
  ∃ s' tr, V2.start_process env s = (inr tt, s') ∧ gui s' = gui s ++ tr ∧
    displays tr =
      (0%Qc, 0%Z) ::
      map (fun i => shown_by (binary64 (fraction N i))) (seq 1 N) ++
      [(pb_w, 100%Z)] ∧
    Forall (fun x => ((0 <= x.1)%Qc ∧ (x.1 <= pb_w)%Qc) ∧ (0 ≤ x.2 ≤ 100)%Z)
      (displays tr) ∧
    StronglySorted display_le (displays tr) ∧
    shown_by (binary64 (fraction N N)) = (pb_w, 100%Z) ∧
    percent (binary64 (fraction 40 23)) = 57%Z ∧
    py_round (fraction 40 23 * Q2Qc (inject_Z 100))%Qc = 58%Z.
Proof.
  intros Hne Hd N.
  assert (HN : N ≠ 0) by (subst N; destruct (input_paths s); done).
  destruct (V2_start_process_run (fun _ => True) (fun _ _ => True) env d s)
    as (rs & ws & s' & Hrun & Hm & _ & _ & _ & _ & Hg & _); auto.
  exists s', (V2_run_events rs). split; [done|]. split; [done|].
  rewrite displays_progress_calls, progress_calls_V2_run.
  subst N. rewrite <- Hm, (length_map fst rs) in HN |- *.
  destruct (run_displays (length rs) HN) as (H1 & H2 & H3 & H4).
  split; [exact H1|]. split; [exact H2|]. split; [exact H3|].
  split; [exact H4|]. split; by vm_compute.
Qed.

Lemma X13_witness :
  let s := initial [["in"; "a.png"]; ["in"; "b.png"]; ["in"; "c.png"]]
             (Some ["out"]) in
  ∃ s' tr, V2.start_process env_ok s = (inr tt, s') ∧ gui s' = gui s ++ tr ∧
    map snd (displays tr) = [0; 33; 67; 100; 100]%Z ∧
    StronglySorted display_le (displays tr).
Proof.
  intros s.
  destruct (X13_display_of_a_run env_ok s ["out"])
    as (s' & tr & Hrun & Hg & Hd & _ & Hs & _); [discriminate|reflexivity|].
  exists s', tr. split; [exact Hrun|]. split; [exact Hg|].
  split; [|exact Hs]. rewrite Hd. by vm_compute.
Defined.

(** ** Start-up *)

Lemma python_bin_fresh :
  Launcher.PYTHON_BIN os_fresh = "/home/u/.noback_venv/bin/python3".
Proof. reflexivity. Qed.

Ltac run_launcher :=
  unfold Launcher.prologue;
  unfold Launcher.ensure_venv, Launcher.restart_in_venv,
    Launcher.check_call, Launcher.print, Launcher.call, Launcher.history,
    Launcher.lbind, Launcher.lret, Launcher.lraise; simpl.





(** ** A whole launch *)

Lemma commands_app tr1 tr2 :
  Launcher.commands (tr1 ++ tr2) = Launcher.commands tr1 ++ Launcher.commands tr2.
Proof. apply omap_app. Qed.

Lemma replacements_app tr1 tr2 :
  Launcher.replacements (tr1 ++ tr2) =
  Launcher.replacements tr1 ++ Launcher.replacements tr2.
Proof. apply omap_app. Qed.

(** What [ensure_venv] leaves behind when it returns. *)
Lemma ensure_venv_returns os p tr :
  ∃ made,
    (Launcher.ensure_venv os p tr).2 = tr ++ made ∧
    Launcher.replacements made = [] ∧
    ((Launcher.ensure_venv os p tr).1 = inr tt →
       Launcher.commands made = Launcher.plan os p tr).
Proof.
  unfold Launcher.plan. run_launcher.
  destruct (Launcher.path_there os tr (Launcher.PYTHON_BIN os)); simpl;
    repeat match goal with
      | |- context [Launcher.check_call_error os ?t ?c] =>
          destruct (Launcher.check_call_error os t c); simpl
      end;
    (eexists; split; [by rewrite <- ?app_assoc|]); by split.
Qed.

Lemma plan_ends os p tr :
  ∃ pre, Launcher.plan os p tr =
         pre ++ [Launcher.pip_upgrade os; Launcher.pip_install os].
Proof. unfold Launcher.plan. by eexists. Qed.

(** One interpreter: the top of the script either returns, in the
    interpreter of the environment, or has the process replaced by it. *)
Lemma prologue_steps os p tr :
  let bin := Launcher.PYTHON_BIN os in
  ∃ made,
    (Launcher.prologue os p tr).2 = tr ++ made ∧
    match (Launcher.prologue os p tr).1 with
    | inr Launcher.Returned =>
        Launcher.executable p = bin ∧ Launcher.replacements made = [] ∧
        Launcher.commands made = Launcher.plan os p tr
    | inr (Launcher.Replaced q) =>
        Launcher.executable p ≠ bin ∧
        q = Launcher.started os bin (bin :: Launcher.argv p) ∧
        ∃ pre, made = pre ++ [Launcher.Execv bin (bin :: Launcher.argv p)] ∧
               Launcher.replacements pre = [] ∧
               Launcher.commands pre = Launcher.plan os p tr
    | inl e =>
        Launcher.replacements made = [] ∨
        Launcher.replacements made = [(bin, bin :: Launcher.argv p)]
    end.
Proof.
  intros bin.
  destruct (ensure_venv_returns os p tr) as (made & Htr & Hrep & Hcmd).
  unfold Launcher.prologue, Launcher.lbind.
  destruct (Launcher.ensure_venv os p tr) as [[e|[]] tr1]; simpl in *; subst tr1.
  { exists made. split; [done|]. by left. }
  specialize (Hcmd eq_refl). unfold Launcher.restart_in_venv. fold bin.
  destruct (String.eqb_spec (Launcher.executable p) bin) as [Heq|Hne].
  { exists made. by repeat split. }
  run_launcher.
  destruct (Launcher.execv_error os _ bin (bin :: Launcher.argv p)); simpl.
  - eexists. split; [by rewrite <- !app_assoc|].
    right. by rewrite !replacements_app, Hrep.
  - eexists. split; [by rewrite <- !app_assoc|].
    split; [done|]. split; [done|].
    exists (made ++ [Launcher.PrintMsg Launcher.MsgRestart]).
    split; [by rewrite <- !app_assoc|].
    rewrite replacements_app, commands_app, Hrep, Hcmd. simpl.
    by rewrite app_nil_r.
Qed.


Lemma launch_unfold fuel os p tr :
  Launcher.launch fuel os p tr =
  match Launcher.prologue os p tr with
  | (inl e, tr') => (Launcher.Died e, tr')
  | (inr Launcher.Returned, tr') => (Launcher.Application p, tr')
  | (inr (Launcher.Replaced p'), tr') =>
      match fuel with
      | 0 => (Launcher.Restarting p', tr')
      | S fuel' => Launcher.launch fuel' os p' tr'
      end
  end.
Proof. by destruct fuel. Qed.


(** X16: whatever the operating system does and however long the launch is
    followed, the process is only ever replaced by [PYTHON_BIN], once per
    interpreter, and the script goes on to the application only in an
    interpreter whose [sys.executable] is [PYTHON_BIN] -- the one the
    launch began in or one started by a replacement -- and only right
    after that interpreter has run the pip upgrade and the installation of
    the packages. *)
Theorem X16_application_only_inside_venv fuel os p tr :
  let bin := Launcher.PYTHON_BIN os in
  ∃ made,
    (Launcher.launch fuel os p tr).2 = tr ++ made ∧
    (∀ path args, In (path, args) (Launcher.replacements made) →
       path = bin ∧ ∃ rest, args = bin :: rest) ∧
    length (Launcher.replacements made) ≤ S fuel ∧
    match (Launcher.launch fuel os p tr).1 with
    | Launcher.Application q =>
        Launcher.executable q = bin ∧
        (q = p ∨ ∃ args, In (bin, args) (Launcher.replacements made) ∧
                         q = Launcher.started os bin args) ∧
        ∃ pre, Launcher.commands made =
               pre ++ [Launcher.pip_upgrade os; Launcher.pip_install os]
    | Launcher.Restarting q =>
        length (Launcher.replacements made) = S fuel
    | Launcher.Died e => True
    end.
Proof.
  intros bin. revert p tr.
  assert (Hone : ∀ (p : Launcher.Proc) path args,
    In (path, args) [(bin, bin :: Launcher.argv p)] →
    path = bin ∧ ∃ rest, args = bin :: rest).
  { intros p path args [[= <- <-]|[]]. eauto. }
  induction fuel as [|fuel IH]; intros p tr; rewrite launch_unfold;
    destruct (prologue_steps os p tr) as (made & Htr & Hcase); fold bin in Hcase;
    destruct (Launcher.prologue os p tr) as [[e|[|q]] tr1]; simpl in Htr, Hcase;
    subst tr1.
  - exists made. split; [done|]. destruct Hcase as [->| ->]; simpl.
    + split; [by intros ?? []|]. split; [lia|done].
    + split; [apply Hone|]. split; [lia|done].
  - exists made. split; [done|]. destruct Hcase as (Hp & -> & Hcmd). simpl.
    split; [by intros ?? []|]. split; [lia|]. split; [done|].
    split; [by left|]. rewrite Hcmd. apply plan_ends.
  - destruct Hcase as (Hp & -> & pre & -> & Hrep & Hcmd).
    eexists. split; [done|]. rewrite replacements_app, Hrep. simpl.
    split; [apply Hone|]. split; [lia|done].
  - exists made. split; [done|]. destruct Hcase as [->| ->]; simpl.
    + split; [by intros ?? []|]. split; [lia|done].
    + split; [apply Hone|]. split; [lia|done].
  - exists made. split; [done|]. destruct Hcase as (Hp & -> & Hcmd). simpl.
    split; [by intros ?? []|]. split; [lia|]. split; [done|].
    split; [by left|]. rewrite Hcmd. apply plan_ends.
  - destruct Hcase as (Hp & -> & pre & -> & Hrep & Hcmd).
    destruct (IH (Launcher.started os bin (bin :: Launcher.argv p))
                (tr ++ pre ++ [Launcher.Execv bin (bin :: Launcher.argv p)]))
      as (made2 & Htr2 & Hall & Hlen & Hout).
    exists ((pre ++ [Launcher.Execv bin (bin :: Launcher.argv p)]) ++ made2).
    split; [by rewrite Htr2, <- !app_assoc|].
    rewrite !replacements_app, Hrep. simpl.
    split; [|split; [lia|]].
    { intros path args [Hin|Hin]; [apply (Hone p); by left|by apply Hall]. }
    destruct (Launcher.launch fuel os _ _).1 as [q|e|q]; [|done|lia].
    destruct Hout as (Hq & Hfrom & pre2 & Hcmd2). split; [done|]. split.
    + right. destruct Hfrom as [->|(args & Hin & ->)].
      * eexists. split; [by left|done].
      * eexists. split; [by right|done].
    + rewrite !commands_app, Hcmd2. eexists. by rewrite !app_assoc.
Qed.


(** Without network: the environment is made and pip upgraded, the
    installation of the packages raises and the launch dies there, before
    any replacement. *)
Lemma launch_offline :
  Launcher.launch 1 os_offline system_python [] =
  (Launcher.Died (Exception "returned non-zero exit status 1"),
   [Launcher.PrintMsg Launcher.MsgCreate;
    Launcher.CheckCall ["/usr/bin/python3"; "-m"; "venv"; "/home/u/.noback_venv"];
    Launcher.PrintMsg Launcher.MsgInstall;
    Launcher.CheckCall (Launcher.pip_upgrade os_offline);
    Launcher.CheckCall (Launcher.pip_install os_offline)]).
Proof. reflexivity. Qed.


